(** * pxi/buffer: one writer, many readers

    A shallow embedding of [buffer.go] and the properties of its
    specification.  The Go package keeps one [Buffer] (storage, closed flag,
    epoch toggle, lazily created condition variable) and any number of
    [reader] values that point at it and carry their own offset and the
    epoch they were created in.

    Every exported operation runs its body under the buffer's lock, so an
    execution is an interleaving of whole operations.  A [Read] that finds
    nothing to deliver parks on the condition variable with the lock
    released and re-tests its condition after every wake-up; it has done
    nothing to the state by then, so the model reports such a call as
    [Waiting] and lets the scheduler issue it again later. *)

From Stdlib Require Import ZArith Bool Lia.
From Stdlib Require Import Strings.Byte.
From stdpp Require Import base tactics option list.

Local Open Scope Z_scope.

(** ** Go integers *)

Module GoInt.

(** [int] on the 64-bit targets. *)
Definition min_int : Z := - 2 ^ 63.
Definition max_int : Z := 2 ^ 63 - 1.

(** Two's-complement wrap-around of a mathematical result. *)
Definition wrap (z : Z) : Z := (z + 2 ^ 63) mod 2 ^ 64 - 2 ^ 63.

Definition add (a b : Z) : Z := wrap (a + b).

Definition in_range (z : Z) : Prop := min_int <= z <= max_int.

End GoInt.

(** ** The part of the Go runtime the package relies on

    [append] reallocates when the result does not fit the capacity; the new
    capacity is chosen by the runtime ([growslice]) and the language only
    promises that the result fits. *)

Class GoRuntime := {
  growslice : Z -> Z -> Z;
  growslice_fits : forall oldcap needed, needed <= growslice oldcap needed
}.

(** ** Byte slices *)

Module Slice.

(** A [[]byte] value is either the nil slice or a view of an array: the
    elements below its length and its capacity. *)
Inductive t :=
| nil
| arr (l : list byte) (c : Z).

Definition isnil (s : t) : bool :=
  match s with nil => true | arr _ _ => false end.

Definition elems (s : t) : list byte :=
  match s with nil => [] | arr l _ => l end.

Definition cap (s : t) : Z :=
  match s with nil => 0 | arr _ c => c end.

Definition len (s : t) : Z := Z.of_nat (length (elems s)).

(** [make([]byte, 0, c)] *)
Definition make0 (c : Z) : t := arr [] c.

(** [append(s, p...)]: in place when the capacity suffices, otherwise a
    fresh array of the capacity the runtime picks. *)
Definition append `{GoRuntime} (s : t) (p : list byte) : t :=
  let needed := len s + Z.of_nat (length p) in
  if needed <=? cap s
  then match s with nil => nil | arr l c => arr (l ++ p) c end
  else arr (elems s ++ p) (growslice (cap s) needed).

(** [s[:0]]: always in bounds, keeps the array and so the capacity; the
    nil slice stays nil. *)
Definition to0 (s : t) : t :=
  match s with nil => nil | arr _ c => arr [] c end.

(** [s[low:]]: the high bound defaults to [len(s)], and the run-time check
    is [0 <= low <= len(s)]; [None] stands for the run-time panic
    "slice bounds out of range". *)
Definition from (s : t) (low : Z) : option t :=
  if (0 <=? low) && (low <=? len s)
  then Some match s with
            | nil => nil
            | arr l c => arr (drop (Z.to_nat low) l) (c - low)
            end
  else None.

(** [copy(dst, src)] on the elements: the count copied and the new
    contents of [dst]. *)
Definition copy (dst : list byte) (src : t) : Z * list byte :=
  let n := Nat.min (length dst) (length (elems src)) in
  (Z.of_nat n, take n (elems src) ++ drop n dst).

End Slice.

(** ** Data model *)

(** [errClosed], [io.EOF] and [io.ErrUnexpectedEOF]. *)
Inductive error := errClosed | EOF | ErrUnexpectedEOF.

(** [type Buffer struct].  The lock [mu] has no field here: operations are
    atomic.  [sig] records whether the condition variable has been
    created ([b.sig != nil]). *)
Record Buffer := mkBuffer {
  buf : Slice.t;
  eof : bool;
  set : bool;
  sig : bool
}.

(** [type reader struct]; the embedded [*Buffer] is the one buffer of the
    [world] below. *)
Record reader := mkReader {
  off : Z;
  mark : bool
}.

(** The heap: the shared buffer and the readers created so far, addressed
    by their position. *)
Record world := mkWorld {
  buffer : Buffer;
  readers : list reader
}.

(** [&Buffer{}] with no reader yet. *)
Definition empty_Buffer : Buffer :=
  {| buf := Slice.nil; eof := false; set := false; sig := false |}.

Definition init : world := {| buffer := empty_Buffer; readers := [] |}.

(** ** Outcomes of a call *)

(** Run-time faults of the Go program; [NoSuchReader] is a call through a
    reader that was never created, which no Go program can make. *)
Inductive fault := SliceBoundsOutOfRange | NilDereference | NoSuchReader.

Inductive result (A : Type) :=
| Done (a : A) (w : world)
| Waiting
| Fault (f : fault).
Arguments Done {A} a w.
Arguments Waiting {A}.
Arguments Fault {A} f.

(** State passing with faults and suspension. *)
Definition M (A : Type) : Type := world -> result A.

#[global] Instance M_ret : MRet M := fun A a w => Done a w.
#[global] Instance M_bind : MBind M := fun A B k m w =>
  match m w with
  | Done a w' => k a w'
  | Waiting => Waiting
  | Fault f => Fault f
  end.

Definition panic {A} (f : fault) : M A := fun _ => Fault f.
Definition park {A} : M A := fun _ => Waiting.

Definition load_Buffer : M Buffer := fun w => Done (buffer w) w.
Definition store_Buffer (b : Buffer) : M unit :=
  fun w => Done tt {| buffer := b; readers := readers w |}.

Definition load_reader (i : nat) : M reader := fun w =>
  match readers w !! i with
  | Some r => Done r w
  | None => Fault NoSuchReader
  end.
Definition store_reader (i : nat) (r : reader) : M unit :=
  fun w => Done tt {| buffer := buffer w; readers := <[i := r]> (readers w) |}.
Definition alloc_reader (r : reader) : M nat :=
  fun w => Done (length (readers w))
                {| buffer := buffer w; readers := readers w ++ [r] |}.

(** Field assignments [b.buf = s], [b.eof = v], ... *)
Definition set_buf (s : Slice.t) : M unit :=
  b ← load_Buffer;
  store_Buffer {| buf := s; eof := eof b; set := set b; sig := sig b |}.
Definition set_eof (v : bool) : M unit :=
  b ← load_Buffer;
  store_Buffer {| buf := buf b; eof := v; set := set b; sig := sig b |}.
Definition set_set (v : bool) : M unit :=
  b ← load_Buffer;
  store_Buffer {| buf := buf b; eof := eof b; set := v; sig := sig b |}.
Definition set_sig (v : bool) : M unit :=
  b ← load_Buffer;
  store_Buffer {| buf := buf b; eof := eof b; set := set b; sig := v |}.
Definition set_off (i : nat) (v : Z) : M unit :=
  r ← load_reader i;
  store_reader i {| off := v; mark := mark r |}.

(** ** The operations of [buffer.go] *)

Section Operations.
Context `{GoRuntime}.

Definition Len : M Z := b ← load_Buffer; mret (Slice.len (buf b)).
Definition Cap : M Z := b ← load_Buffer; mret (Slice.cap (buf b)).
Definition Bytes : M (list byte) :=
  b ← load_Buffer; mret (Slice.elems (Slice.append Slice.nil (Slice.elems (buf b)))).

(** [signal]: broadcast if the condition variable exists.  Waking the
    parked readers changes no field. *)
Definition signal : M unit :=
  b ← load_Buffer;
  if sig b then mret tt else mret tt.

Definition Write (p : list byte) : M (Z * option error) :=
  if Z.of_nat (length p) =? 0 then mret (0, None) else
  b ← load_Buffer;
  if eof b then mret (0, Some errClosed) else
  (if Slice.isnil (buf b) then set_buf (Slice.make0 1024) else mret tt) ;;
  b ← load_Buffer;
  set_buf (Slice.append (buf b) p) ;;
  signal ;;
  mret (Z.of_nat (length p), None).

Definition Close : M (option error) :=
  b ← load_Buffer;
  (if negb (eof b) then set_eof true ;; signal else mret tt) ;;
  mret None.

Definition Reset : M unit :=
  set_eof false ;;
  b ← load_Buffer;
  set_buf (Slice.to0 (buf b)) ;;
  b ← load_Buffer;
  set_set (negb (set b)) ;;
  signal.

Definition NewReader : M nat :=
  b ← load_Buffer;
  (if negb (sig b) then set_sig true else mret tt) ;;
  b ← load_Buffer;
  alloc_reader {| off := 0; mark := set b |}.

(** [r.sig.Wait()]: a nil condition variable faults, otherwise the call
    is suspended until the next broadcast. *)
Definition sig_Wait {A} : M A :=
  b ← load_Buffer;
  if sig b then park else panic NilDereference.

(** [reader.Read]; the result carries the contents of the caller's
    slice [p] after the call. *)
Definition Read (i : nat) (p : list byte) : M (Z * option error * list byte) :=
  r ← load_reader i;
  b ← load_Buffer;
  (if (negb (eof b) && (Slice.len (buf b) =? off r)) && eqb (mark r) (set b)
   then sig_Wait else mret tt) ;;
  if negb (eqb (mark r) (set b)) then mret (0, Some ErrUnexpectedEOF, p) else
  if (Slice.len (buf b) =? off r) && eof b then mret (0, Some EOF, p) else
  match Slice.from (buf b) (off r) with
  | None => panic SliceBoundsOutOfRange
  | Some src =>
      let '(n, p') := Slice.copy p src in
      set_off i (GoInt.add (off r) n) ;;
      mret (n, None, p')
  end.

End Operations.

(** ** Interleavings

    A schedule is a list of calls.  A parked [Read] leaves the world as it
    is and shows up as [EvParked]; a fault ends the program. *)

Inductive op :=
| OpWrite (p : list byte)
| OpClose
| OpReset
| OpNewReader
| OpRead (i : nat) (p : list byte).

Inductive event :=
| EvWrite (n : Z) (e : option error)
| EvClose (e : option error)
| EvReset
| EvNewReader (i : nat)
| EvRead (n : Z) (e : option error) (p' : list byte)
| EvParked.

Definition attempt (m : M event) : M event := fun w =>
  match m w with
  | Waiting => Done EvParked w
  | r => r
  end.

Section Schedules.
Context `{GoRuntime}.

Definition exec (o : op) : M event :=
  match o with
  | OpWrite p => '(n, e) ← Write p; mret (EvWrite n e)
  | OpClose => e ← Close; mret (EvClose e)
  | OpReset => Reset ;; mret EvReset
  | OpNewReader => i ← NewReader; mret (EvNewReader i)
  | OpRead i p => '(n, e, p') ← Read i p; mret (EvRead n e p')
  end.

Fixpoint run (ops : list op) : M (list event) :=
  match ops with
  | [] => mret []
  | o :: ops' =>
      e ← attempt (exec o);
      es ← run ops';
      mret (e :: es)
  end.

(** The states some schedule reaches from the empty buffer. *)
Definition reachable (w : world) : Prop :=
  exists ops es, run ops init = Done es w.

End Schedules.

(** A runtime to compute with: grow to twice the old capacity, or to what
    is needed if that is more. *)
#[global] Instance doubling : GoRuntime :=
  {| growslice := fun oldcap needed => Z.max needed (2 * oldcap);
     growslice_fits := fun oldcap needed => Z.le_max_l needed (2 * oldcap) |}.

Definition bytes_aa : list byte := [x61; x61].
Definition bytes_bb : list byte := [x62; x62].
Definition zeros (n : nat) : list byte := replicate n x00.

(** What the caller of an operation sees, the world left aside. *)
Inductive outcome (A : Type) :=
| Returned (a : A)
| Parked
| Panicked (f : fault).
Arguments Returned {A} a.
Arguments Parked {A}.
Arguments Panicked {A} f.

Definition outcome_of {A} (r : result A) : outcome A :=
  match r with
  | Done a _ => Returned a
  | Waiting => Parked
  | Fault f => Panicked f
  end.

Definition is_Reset (o : op) : bool :=
  match o with OpReset => true | _ => false end.

(** A schedule in which the buffer is never reset. *)
Definition no_Reset (ops : list op) : bool := forallb (fun o => negb (is_Reset o)) ops.

(** A schedule made only of reads through readers other than [j]. *)
Definition reads_by_others (j : nat) (ops : list op) : bool :=
  forallb (fun o => match o with
                    | OpRead i _ => negb (i =? j)%nat
                    | _ => false
                    end) ops.

(** The data-model invariant of the specification: a reader of the current
    epoch has its offset within the storage. *)
Definition offsets_in_bounds (w : world) : Prop :=
  forall i r, readers w !! i = Some r ->
              mark r = set (buffer w) ->
              off r <= Slice.len (buf (buffer w)).

Definition offsets_nonneg (w : world) : Prop :=
  forall i r, readers w !! i = Some r -> 0 <= off r.

(** Every reader has a condition variable to wait on. *)
Definition sig_installed (w : world) : Prop :=
  readers w <> [] -> sig (buffer w) = true.

(** The bytes a schedule offers to [Write]. *)
Definition op_bytes (o : op) : Z :=
  match o with OpWrite p => Z.of_nat (length p) | _ => 0 end.

Fixpoint bytes_offered (ops : list op) : Z :=
  match ops with
  | [] => 0
  | o :: ops' => op_bytes o + bytes_offered ops'
  end.

(** A stream to which data has been written: some earlier [Write] of a
    non-empty input succeeded. *)
Definition written `{GoRuntime} (w : world) : Prop :=
  exists w0 p n w1 ops es,
    p <> [] /\ Write p w0 = Done (n, None) w1 /\ run ops w1 = Done es w.

(** Worlds and schedules to evaluate on. *)

(** "aabb" written; the first reader has consumed "aa". *)
Definition sample_open : world :=
  {| buffer := {| buf := Slice.arr (bytes_aa ++ bytes_bb) 1024;
                  eof := false; set := false; sig := true |};
     readers := [ {| off := 2; mark := false |}; {| off := 0; mark := false |} ] |}.

(** The same stream closed, the first reader at its end. *)
Definition sample_closed : world :=
  {| buffer := {| buf := Slice.arr (bytes_aa ++ bytes_bb) 1024;
                  eof := true; set := false; sig := true |};
     readers := [ {| off := 4; mark := false |}; {| off := 0; mark := false |} ] |}.

(** A stream whose epoch has moved on while "bb" is in storage; both
    readers are of the previous epoch. *)
Definition sample_stale : world :=
  {| buffer := {| buf := Slice.arr bytes_bb 1024;
                  eof := true; set := true; sig := true |};
     readers := [ {| off := 2; mark := false |}; {| off := 0; mark := false |} ] |}.

(** The empty buffer after [Close]. *)
Definition closed_empty : world :=
  {| buffer := {| buf := Slice.nil; eof := true; set := false; sig := false |};
     readers := [] |}.

(** The empty buffer after a write of "aa". *)
Definition written_aa : world :=
  {| buffer := {| buf := Slice.arr bytes_aa 1024;
                  eof := false; set := false; sig := false |};
     readers := [] |}.

(** Calls issued on [sample_open] once it has been closed, and the world
    they lead to. *)
Definition after_Close_calls : list op :=
  [OpWrite bytes_bb; OpRead 1%nat (zeros 4); OpNewReader].

Definition sample_after_Close : world :=
  {| buffer := {| buf := Slice.arr (bytes_aa ++ bytes_bb) 1024;
                  eof := true; set := false; sig := true |};
     readers := [ {| off := 2; mark := false |}; {| off := 4; mark := false |};
                  {| off := 0; mark := false |} ] |}.

(** [sample_open] after its first reader has read into a slice of 3. *)
Definition sample_open_read : world :=
  {| buffer := buffer sample_open;
     readers := [ {| off := 4; mark := false |}; {| off := 0; mark := false |} ] |}.

(** Write "aa", create a reader, let it read, reset twice. *)
Definition double_reset : list op :=
  [OpWrite bytes_aa; OpNewReader; OpRead 0%nat (zeros 4); OpReset; OpReset].

Definition after_double_reset : world :=
  {| buffer := {| buf := Slice.arr [] 1024;
                  eof := false; set := false; sig := true |};
     readers := [ {| off := 2; mark := false |} ] |}.

(** ** The remaining accessor and the helpers of [buffer_test.go] *)

(** [String]: the storage as a Go string, kept here as its bytes. *)
Definition String : M (list byte) :=
  b ← load_Buffer; mret (Slice.elems (buf b)).

Section Helpers.
Context `{GoRuntime}.

(** [write(w, s)]: [io.WriteString] on a writer without a [WriteString]
    method calls [Write([]byte(s))]; the count is dropped. *)
Definition write (s : list byte) : M (option error) :=
  '(_, err) ← Write s; mret err.

(** [read(r, c)]: read once into a fresh slice of [c] zero bytes and return
    [p[:n]]; the bounds check of that slice expression is [0 <= n <= cap(p)]. *)
Definition read (i : nat) (c : nat) : M (list byte * option error) :=
  '(n, err, p') ← Read i (replicate c x00);
  if (0 <=? n) && (n <=? Z.of_nat (length p'))
  then mret (take (Z.to_nat n) p', err)
  else panic SliceBoundsOutOfRange.

End Helpers.

(** The bytes a call hands to its caller: [p[:n]] of a [Read]. *)
Definition delivered (e : event) : list byte :=
  match e with
  | EvRead n _ p' => take (Z.to_nat n) p'
  | _ => []
  end.

(** The total room in a list of caller slices. *)
Fixpoint room (ps : list (list byte)) : Z :=
  match ps with
  | [] => 0
  | p :: ps' => Z.of_nat (length p) + room ps'
  end.

(** Every [Read] of the schedule goes through a reader that exists when it
    is issued, [n] readers existing at the start. *)
Fixpoint handles_ok (n : nat) (ops : list op) : bool :=
  match ops with
  | [] => true
  | OpNewReader :: ops' => handles_ok (S n) ops'
  | OpRead i _ :: ops' => (i <? n)%nat && handles_ok n ops'
  | _ :: ops' => handles_ok n ops'
  end.

(** The slice invariant of the storage, and the initial allocation. *)
Definition storage_fits (w : world) : Prop :=
  Slice.len (buf (buffer w)) <= Slice.cap (buf (buffer w)).

Definition allocated_1024 (w : world) : Prop :=
  buf (buffer w) = Slice.nil \/ 1024 <= Slice.cap (buf (buffer w)).

(** More worlds to evaluate on. *)

(** An open stream holding "aa" whose only reader has read it all. *)
Definition sample_parked : world :=
  {| buffer := {| buf := Slice.arr bytes_aa 1024;
                  eof := false; set := false; sig := true |};
     readers := [ {| off := 2; mark := false |} ] |}.

Definition sample_parked_closed : world :=
  {| buffer := {| buf := Slice.arr bytes_aa 1024;
                  eof := true; set := false; sig := true |};
     readers := [ {| off := 2; mark := false |} ] |}.

(** The empty buffer with one reader. *)
Definition one_reader : world :=
  {| buffer := {| buf := Slice.nil; eof := false; set := false; sig := true |};
     readers := [ {| off := 0; mark := false |} ] |}.

(** * Properties *)

Ltac step_M :=
  cbv beta iota zeta delta
    [mbind mret M_bind M_ret load_Buffer store_Buffer load_reader
     store_reader alloc_reader set_buf set_eof set_set set_sig set_off
     signal panic park sig_Wait].

Section Facts.
Context `{GoRuntime}.

(** ** Write *)

Lemma Write_empty (w : world) : Write [] w = Done (0, None) w.
Proof. reflexivity. Qed.

Lemma length_pos_nonempty (p : list byte) :
  p <> [] -> (Z.of_nat (length p) =? 0) = false.
Proof. destruct p; [congruence | intros _; apply Z.eqb_neq; simpl; lia]. Qed.

Lemma Write_closed (w : world) (p : list byte) :
  p <> [] -> eof (buffer w) = true -> Write p w = Done (0, Some errClosed) w.
Proof.
  intros Hp Hc. unfold Write. rewrite (length_pos_nonempty p Hp).
  step_M. rewrite Hc. reflexivity.
Qed.

Lemma Write_open (w : world) (p : list byte) :
  p <> [] -> eof (buffer w) = false ->
  Write p w =
  Done (Z.of_nat (length p), None)
       {| buffer :=
            {| buf := Slice.append
                        (if Slice.isnil (buf (buffer w))
                         then Slice.make0 1024 else buf (buffer w)) p;
               eof := false;
               set := set (buffer w);
               sig := sig (buffer w) |};
          readers := readers w |}.
Proof.
  intros Hp Ho. unfold Write. rewrite (length_pos_nonempty p Hp).
  destruct w as [[s e t g] rs]; simpl in *; subst e.
  step_M. simpl. destruct (Slice.isnil s), g; reflexivity.
Qed.

(** [Write] always returns. *)
Lemma Write_total (w : world) (p : list byte) :
  exists n err w', Write p w = Done (n, err) w'.
Proof.
  destruct p as [|x p]; [rewrite Write_empty; eauto|].
  destruct (eof (buffer w)) eqn:He.
  - rewrite Write_closed by (assumption || discriminate). eauto.
  - rewrite Write_open by (assumption || discriminate). eauto.
Qed.

(** ** Close, Reset, NewReader *)

Lemma Close_eq (w : world) :
  Close w =
  Done None
       {| buffer := {| buf := buf (buffer w); eof := true;
                       set := set (buffer w); sig := sig (buffer w) |};
          readers := readers w |}.
Proof.
  destruct w as [[s e t g] rs]. unfold Close. step_M. simpl.
  destruct e, g; reflexivity.
Qed.

Lemma Reset_eq (w : world) :
  Reset w =
  Done tt
       {| buffer := {| buf := Slice.to0 (buf (buffer w)); eof := false;
                       set := negb (set (buffer w)); sig := sig (buffer w) |};
          readers := readers w |}.
Proof.
  destruct w as [[s e t g] rs]. unfold Reset. step_M. simpl.
  destruct g; reflexivity.
Qed.

Lemma NewReader_eq (w : world) :
  NewReader w =
  Done (length (readers w))
       {| buffer := {| buf := buf (buffer w); eof := eof (buffer w);
                       set := set (buffer w); sig := true |};
          readers := readers w ++ [ {| off := 0; mark := set (buffer w) |} ] |}.
Proof.
  destruct w as [[s e t g] rs]. unfold NewReader. step_M. simpl.
  destruct g; reflexivity.
Qed.

(** ** Read, branch by branch *)

Lemma Read_no_reader (w : world) (i : nat) (p : list byte) :
  readers w !! i = None -> Read i p w = Fault NoSuchReader.
Proof. intros Hi. unfold Read. step_M. rewrite Hi. reflexivity. Qed.

Lemma Read_waits (w : world) (i : nat) (r : reader) (p : list byte) :
  readers w !! i = Some r ->
  eof (buffer w) = false ->
  off r = Slice.len (buf (buffer w)) ->
  mark r = set (buffer w) ->
  Read i p w = if sig (buffer w) then Waiting else Fault NilDereference.
Proof.
  intros Hi He Ho Hm. unfold Read. step_M. rewrite Hi, He, Ho, Hm.
  rewrite Z.eqb_refl, eqb_reflx. simpl.
  destruct (sig (buffer w)); reflexivity.
Qed.

Lemma Read_discontinued (w : world) (i : nat) (r : reader) (p : list byte) :
  readers w !! i = Some r ->
  mark r <> set (buffer w) ->
  Read i p w = Done (0, Some ErrUnexpectedEOF, p) w.
Proof.
  intros Hi Hm. unfold Read. step_M. rewrite Hi.
  apply eqb_false_iff in Hm. rewrite Hm, andb_false_r. reflexivity.
Qed.

Lemma Read_at_EOF (w : world) (i : nat) (r : reader) (p : list byte) :
  readers w !! i = Some r ->
  mark r = set (buffer w) ->
  off r = Slice.len (buf (buffer w)) ->
  eof (buffer w) = true ->
  Read i p w = Done (0, Some EOF, p) w.
Proof.
  intros Hi Hm Ho He. unfold Read. step_M. rewrite Hi, He, Ho, Hm.
  rewrite Z.eqb_refl, eqb_reflx. reflexivity.
Qed.

Lemma Read_copies (w : world) (i : nat) (r : reader) (p : list byte) :
  readers w !! i = Some r ->
  mark r = set (buffer w) ->
  off r <> Slice.len (buf (buffer w)) ->
  Read i p w =
  match Slice.from (buf (buffer w)) (off r) with
  | None => Fault SliceBoundsOutOfRange
  | Some src =>
      Done (fst (Slice.copy p src), None, snd (Slice.copy p src))
           {| buffer := buffer w;
              readers := <[i := {| off := GoInt.add (off r) (fst (Slice.copy p src));
                                   mark := mark r |}]> (readers w) |}
  end.
Proof.
  intros Hi Hm Ho. unfold Read. step_M. rewrite Hi.
  assert (Heq : eqb (mark r) (set (buffer w)) = true)
    by (rewrite Hm; apply eqb_reflx).
  rewrite Heq.
  assert (Hne : (Slice.len (buf (buffer w)) =? off r) = false)
    by (apply Z.eqb_neq; congruence).
  rewrite Hne, andb_false_r. simpl.
  destruct (Slice.from (buf (buffer w)) (off r)) as [src|]; [|reflexivity].
  simpl. rewrite Hi. reflexivity.
Qed.

(** A [Read] that returns has touched nothing but the offset of its own
    reader. *)
Lemma Read_Done_inv (w w' : world) (i : nat) (p : list byte)
      (a : Z * option error * list byte) :
  Read i p w = Done a w' ->
  exists r, readers w !! i = Some r /\
    (w' = w \/
     exists n, w' = {| buffer := buffer w;
                       readers := <[i := {| off := n; mark := mark r |}]> (readers w) |}).
Proof.
  intros HR. destruct (readers w !! i) as [r|] eqn:Hi.
  2: { rewrite Read_no_reader in HR by assumption. discriminate. }
  exists r. split; [reflexivity|].
  destruct (bool_decide (mark r = set (buffer w))) eqn:Hm.
  - apply bool_decide_eq_true in Hm.
    destruct (Z.eq_dec (off r) (Slice.len (buf (buffer w)))) as [Ho|Ho].
    + destruct (eof (buffer w)) eqn:He.
      * rewrite (Read_at_EOF w i r p Hi Hm Ho He) in HR.
        inversion HR; subst. now left.
      * rewrite (Read_waits w i r p Hi He Ho Hm) in HR.
        destruct (sig (buffer w)); discriminate.
    + rewrite (Read_copies w i r p Hi Hm Ho) in HR.
      destruct (Slice.from (buf (buffer w)) (off r)) as [src|]; [|discriminate].
      inversion HR; subst. right. eexists. reflexivity.
  - apply bool_decide_eq_false in Hm.
    rewrite (Read_discontinued w i r p Hi Hm) in HR.
    inversion HR; subst. now left.
Qed.

(** ** Schedules *)

Lemma run_cons_inv (o : op) (ops : list op) (w w' : world) (es : list event) :
  run (o :: ops) w = Done es w' ->
  exists e w1 es', attempt (exec o) w = Done e w1 /\
                   run ops w1 = Done es' w' /\ es = e :: es'.
Proof.
  simpl. step_M. fold (run ops).
  destruct (attempt (exec o) w) as [e w1| |f]; try discriminate.
  destruct (run ops w1) as [es' w2| |f] eqn:Hrun; try discriminate.
  intros Heq. inversion Heq; subst.
  exists e, w1, es'. repeat split; assumption.
Qed.

Lemma attempt_exec_inv (o : op) (w w' : world) (e : event) :
  attempt (exec o) w = Done e w' ->
  match o with
  | OpWrite p => exists n err, Write p w = Done (n, err) w'
  | OpClose => exists err, Close w = Done err w'
  | OpReset => Reset w = Done tt w'
  | OpNewReader => exists i, NewReader w = Done i w'
  | OpRead i p => (Read i p w = Waiting /\ w' = w) \/
                  (exists a, Read i p w = Done a w')
  end.
Proof.
  unfold attempt, exec. step_M. destruct o.
  - destruct (Write_total w p) as (n & err & w1 & HW). rewrite HW.
    intros Heq. inversion Heq; subst. eauto.
  - rewrite Close_eq. intros Heq. inversion Heq; subst. eauto.
  - rewrite Reset_eq. intros Heq. inversion Heq; subst. reflexivity.
  - rewrite NewReader_eq. intros Heq. inversion Heq; subst. eauto.
  - destruct (Read i p w) as [[[n err] p'] w1| |f]; try discriminate.
    + intros Heq. inversion Heq; subst. right. eauto.
    + intros Heq. inversion Heq; subst. left. split; reflexivity.
Qed.

(** ** Zero-length and rejected writes *)

(** C4.  Writing no bytes succeeds with count 0 in every state, open or
    closed, whatever the epoch: no error is returned and the world after
    the call is the world before it, so the storage length, the closed flag
    and the epoch are unchanged. *)
Theorem Write_nothing_is_noop (w : world) :
  exists w', Write [] w = Done (0, None) w' /\
             Slice.len (buf (buffer w')) = Slice.len (buf (buffer w)) /\
             eof (buffer w') = eof (buffer w) /\
             set (buffer w') = set (buffer w) /\
             w' = w.
Proof. exists w. rewrite Write_empty. repeat split. Qed.

(** A call that is not [Reset] leaves a closed stream closed, with the same
    storage and epoch. *)
Lemma step_keeps_closed (o : op) (w w' : world) (e : event) :
  is_Reset o = false ->
  eof (buffer w) = true ->
  attempt (exec o) w = Done e w' ->
  eof (buffer w') = true /\ buf (buffer w') = buf (buffer w) /\
  set (buffer w') = set (buffer w).
Proof.
  intros Ho He Hs. apply attempt_exec_inv in Hs. destruct o; try discriminate.
  - destruct Hs as (n & err & HW). destruct p as [|x p].
    + rewrite Write_empty in HW. inversion HW; subst. auto.
    + rewrite Write_closed in HW by (assumption || discriminate).
      inversion HW; subst. auto.
  - destruct Hs as (err & HC). rewrite Close_eq in HC.
    inversion HC; subst; simpl. auto.
  - destruct Hs as (i & HN). rewrite NewReader_eq in HN.
    inversion HN; subst; simpl. auto.
  - destruct Hs as [[_ ->]|[a HR]]; [auto|].
    apply Read_Done_inv in HR. destruct HR as (r & _ & [->|[n ->]]); simpl; auto.
Qed.

Lemma run_keeps_closed (ops : list op) (w w' : world) (es : list event) :
  no_Reset ops = true ->
  eof (buffer w) = true ->
  run ops w = Done es w' ->
  eof (buffer w') = true /\ buf (buffer w') = buf (buffer w) /\
  set (buffer w') = set (buffer w).
Proof.
  revert w es. induction ops as [|o ops IH]; intros w es Hn He Hr.
  - inversion Hr; subst. auto.
  - simpl in Hn. apply andb_true_iff in Hn. destruct Hn as [Ho Hn].
    apply negb_true_iff in Ho.
    apply run_cons_inv in Hr. destruct Hr as (e & w1 & es' & Hs & Hr & _).
    destruct (step_keeps_closed o w w1 e Ho He Hs) as (He1 & Hb1 & Hs1).
    destruct (IH w1 es' Hn He1 Hr) as (He2 & Hb2 & Hs2).
    rewrite Hb2, Hs2. auto.
Qed.

Lemma Close_closes (w w' : world) (e : event) :
  attempt (exec OpClose) w = Done e w' -> eof (buffer w') = true.
Proof.
  intros Hs. apply attempt_exec_inv in Hs. destruct Hs as (err & HC).
  rewrite Close_eq in HC. inversion HC; subst. reflexivity.
Qed.

(** C3, as amended.  After [Close], and as long as no [Reset] intervenes,
    a [Write] of a non-empty input fails with [errClosed], reports zero
    bytes and leaves the world (so the storage) as it is. *)
Theorem Write_after_Close_rejected
        (p : list byte) (w w' : world) (ops : list op) (es : list event) :
  p <> [] ->
  no_Reset ops = true ->
  run (OpClose :: ops) w = Done es w' ->
  Write p w' = Done (0, Some errClosed) w'.
Proof.
  intros Hp Hn Hr.
  apply run_cons_inv in Hr. destruct Hr as (e & w1 & es' & Hs & Hr & _).
  apply Close_closes in Hs.
  destruct (run_keeps_closed ops w1 w' es' Hn Hs Hr) as (He & _).
  apply Write_closed; assumption.
Qed.

(** ** Successful writes *)

Lemma append_elems (s : Slice.t) (p : list byte) :
  Slice.elems (Slice.append s p) = Slice.elems s ++ p.
Proof.
  unfold Slice.append.
  destruct (Slice.len s + Z.of_nat (length p) <=? Slice.cap s) eqn:Hfit;
    [|reflexivity].
  destruct s as [|l c]; [|reflexivity].
  apply Z.leb_le in Hfit. unfold Slice.len in Hfit. simpl in *.
  destruct p; [reflexivity | simpl in Hfit; lia].
Qed.

Lemma elems_fresh_if_nil (s : Slice.t) :
  Slice.elems (if Slice.isnil s then Slice.make0 1024 else s) = Slice.elems s.
Proof. destruct s; reflexivity. Qed.

(** C8.  On an open stream a [Write] of a non-empty input returns the
    input's length and no error; the storage afterwards is the old storage
    followed by the whole input, so its length has grown by exactly the
    input's length; the closed flag, the epoch and the readers are as
    before. *)
Theorem Write_appends_all (w : world) (p : list byte) :
  p <> [] ->
  eof (buffer w) = false ->
  exists b',
    Write p w = Done (Z.of_nat (length p), None)
                     {| buffer := b'; readers := readers w |} /\
    Slice.elems (buf b') = Slice.elems (buf (buffer w)) ++ p /\
    Slice.len (buf b') = Slice.len (buf (buffer w)) + Z.of_nat (length p) /\
    eof b' = false /\
    set b' = set (buffer w).
Proof.
  intros Hp Ho. rewrite (Write_open w p Hp Ho). eexists. split; [reflexivity|].
  simpl. unfold Slice.len.
  rewrite append_elems, elems_fresh_if_nil, length_app.
  repeat split. lia.
Qed.

(** ** Reading *)

(** C5.  A reader whose captured epoch differs from the stream's gets
    [io.ErrUnexpectedEOF] with zero bytes.  Nothing is assumed about the
    offset, the storage or the closed flag: the answer is the same when
    unread bytes remain and when the end-of-stream condition holds as well,
    so the epoch test comes first; the caller's slice and the world, the
    reader's offset included, are untouched. *)
Theorem Read_stale_epoch_discontinued
        (w : world) (i : nat) (r : reader) (p : list byte) :
  readers w !! i = Some r ->
  mark r <> set (buffer w) ->
  Read i p w = Done (0, Some ErrUnexpectedEOF, p) w.
Proof. apply Read_discontinued. Qed.

(** A call that is not [Reset] leaves a reader that sits at the end of a
    closed stream where it is. *)
Lemma step_keeps_drained (o : op) (w w' : world) (e : event) (i : nat) (r : reader) :
  is_Reset o = false ->
  eof (buffer w) = true ->
  readers w !! i = Some r ->
  mark r = set (buffer w) ->
  off r = Slice.len (buf (buffer w)) ->
  attempt (exec o) w = Done e w' ->
  readers w' !! i = Some r.
Proof.
  intros Ho He Hi Hm Hoff Hs. apply attempt_exec_inv in Hs.
  destruct o; try discriminate.
  - destruct Hs as (n & err & HW). destruct p as [|x p].
    + rewrite Write_empty in HW. inversion HW; subst. assumption.
    + rewrite Write_closed in HW by (assumption || discriminate).
      inversion HW; subst. assumption.
  - destruct Hs as (err & HC). rewrite Close_eq in HC.
    inversion HC; subst; simpl. assumption.
  - destruct Hs as (k & HN). rewrite NewReader_eq in HN.
    inversion HN; subst; simpl. apply lookup_app_l_Some. assumption.
  - destruct Hs as [[_ ->]|[a HR]]; [assumption|].
    destruct (decide (i0 = i)) as [->|Hne].
    + rewrite (Read_at_EOF w i r p Hi Hm Hoff He) in HR.
      inversion HR; subst. assumption.
    + apply Read_Done_inv in HR.
      destruct HR as (r0 & _ & [->|[n ->]]); simpl; [assumption|].
      rewrite list_lookup_insert_ne by assumption. assumption.
Qed.

(** C6.  A reader of the current epoch whose offset equals the storage
    length on a closed stream gets [io.EOF] with zero bytes, and the call
    changes nothing.  It stays that way: after any further calls that do not
    reset the stream (writes, closes, new readers, reads through any reader,
    this one included) the stream's storage, closed flag and epoch and the
    reader are as they were and its [Read] answers [io.EOF] again. *)
Theorem Read_EOF_repeatable (w : world) (i : nat) (r : reader) :
  readers w !! i = Some r ->
  mark r = set (buffer w) ->
  off r = Slice.len (buf (buffer w)) ->
  eof (buffer w) = true ->
  (forall p, Read i p w = Done (0, Some EOF, p) w) /\
  (forall ops es w' p,
      no_Reset ops = true ->
      run ops w = Done es w' ->
      Read i p w' = Done (0, Some EOF, p) w' /\
      readers w' !! i = Some r /\
      buf (buffer w') = buf (buffer w) /\
      eof (buffer w') = true /\
      set (buffer w') = set (buffer w)).
Proof.
  intros Hi Hm Hoff He. split.
  { intros p. apply (Read_at_EOF w i r p); assumption. }
  intros ops. revert w Hi Hm Hoff He.
  induction ops as [|o ops IH]; intros w Hi Hm Hoff He es w' p Hn Hr.
  - inversion Hr; subst. split; [|auto].
    apply (Read_at_EOF w' i r p); assumption.
  - simpl in Hn. apply andb_true_iff in Hn. destruct Hn as [Ho Hn].
    apply negb_true_iff in Ho.
    apply run_cons_inv in Hr. destruct Hr as (e & w1 & es' & Hs & Hr & _).
    destruct (step_keeps_closed o w w1 e Ho He Hs) as (He1 & Hb1 & Hs1).
    pose proof (step_keeps_drained o w w1 e i r Ho He Hi Hm Hoff Hs) as Hi1.
    rewrite <- Hb1, <- Hs1 in *.
    apply (IH w1 Hi1 Hm Hoff He1 es' w' p Hn Hr).
Qed.

Lemma wrap_in_range (z : Z) : GoInt.in_range z -> GoInt.wrap z = z.
Proof.
  unfold GoInt.in_range, GoInt.min_int, GoInt.max_int, GoInt.wrap.
  intros Hz. rewrite Z.mod_small; lia.
Qed.

Lemma from_in_bounds (s : Slice.t) (low : Z) :
  0 <= low <= Slice.len s ->
  exists src, Slice.from s low = Some src /\
              Slice.elems src = drop (Z.to_nat low) (Slice.elems s).
Proof.
  intros [Hl Hh]. unfold Slice.from.
  apply Z.leb_le in Hl, Hh. rewrite Hl, Hh. simpl.
  eexists. split; [reflexivity|].
  destruct s as [|l c]; [|reflexivity].
  simpl. now rewrite drop_nil.
Qed.

Lemma Read_copy_eq (w : world) (i : nat) (r : reader) (p : list byte) :
  readers w !! i = Some r ->
  mark r = set (buffer w) ->
  0 <= off r < Slice.len (buf (buffer w)) ->
  Slice.len (buf (buffer w)) <= GoInt.max_int ->
  let n := Z.min (Z.of_nat (length p)) (Slice.len (buf (buffer w)) - off r) in
  Read i p w =
  Done (n, None,
        take (Z.to_nat n) (drop (Z.to_nat (off r)) (Slice.elems (buf (buffer w))))
          ++ drop (Z.to_nat n) p)
       {| buffer := buffer w;
          readers := <[i := {| off := off r + n; mark := mark r |}]> (readers w) |}.
Proof.
  intros Hi Hm Hoff Hmax n.
  rewrite (Read_copies w i r p Hi Hm) by lia.
  destruct (from_in_bounds (buf (buffer w)) (off r)) as (src & Hsrc & Hel); [lia|].
  rewrite Hsrc. unfold Slice.copy. simpl. rewrite Hel.
  assert (Hn : Z.of_nat (length p `min`
                         length (drop (Z.to_nat (off r)) (Slice.elems (buf (buffer w)))))
               = n).
  { rewrite length_drop. unfold n, Slice.len in *. lia. }
  rewrite Hn.
  assert (Hn' : (length p `min`
                 length (drop (Z.to_nat (off r)) (Slice.elems (buf (buffer w)))))%nat
                = Z.to_nat n) by lia.
  rewrite Hn'.
  unfold GoInt.add. rewrite wrap_in_range; [reflexivity|].
  unfold GoInt.in_range, GoInt.min_int, GoInt.max_int in *. unfold n. lia.
Qed.

(** C7.  A reader of the current epoch whose offset is below the storage
    length copies [n = min(len(p), len(storage) - offset)] bytes, the ones
    that start at its offset, to the front of the caller's slice, moves its
    offset forward by [n] and returns [n] with no error.  Offsets are never
    negative, and a Go slice is no longer than the largest [int]. *)
Theorem Read_copies_available
        (w : world) (i : nat) (r : reader) (p : list byte) :
  readers w !! i = Some r ->
  mark r = set (buffer w) ->
  0 <= off r < Slice.len (buf (buffer w)) ->
  Slice.len (buf (buffer w)) <= GoInt.max_int ->
  let n := Z.min (Z.of_nat (length p)) (Slice.len (buf (buffer w)) - off r) in
  Read i p w =
  Done (n, None,
        take (Z.to_nat n) (drop (Z.to_nat (off r)) (Slice.elems (buf (buffer w))))
          ++ drop (Z.to_nat n) p)
       {| buffer := buffer w;
          readers := <[i := {| off := off r + n; mark := mark r |}]> (readers w) |}.
Proof. apply Read_copy_eq. Qed.

(** ** Independence of readers *)

(** What a [Read] answers depends on the buffer and on its own reader
    only. *)
Lemma Read_outcome_local (w1 w2 : world) (j : nat) (q : list byte) :
  buffer w1 = buffer w2 ->
  readers w1 !! j = readers w2 !! j ->
  outcome_of (Read j q w1) = outcome_of (Read j q w2).
Proof.
  destruct w1 as [b rs1], w2 as [b2 rs2]; simpl. intros <- Hr.
  unfold Read. step_M. simpl. rewrite Hr.
  destruct (rs2 !! j) as [r|] eqn:Hj; [simpl|reflexivity].
  destruct (negb (eof b) && (Slice.len (buf b) =? off r) && eqb (mark r) (set b));
    simpl.
  { destruct (sig b); reflexivity. }
  destruct (negb (eqb (mark r) (set b))); [reflexivity|].
  destruct ((Slice.len (buf b) =? off r) && eof b); [reflexivity|].
  destruct (Slice.from (buf b) (off r)) as [src|]; [|reflexivity].
  simpl. rewrite Hr, Hj. reflexivity.
Qed.

Lemma Read_frame (w w' : world) (i : nat) (p : list byte)
      (a : Z * option error * list byte) :
  Read i p w = Done a w' ->
  buffer w' = buffer w /\
  length (readers w') = length (readers w) /\
  mark <$> readers w' !! i = mark <$> readers w !! i /\
  (forall j, j <> i -> readers w' !! j = readers w !! j).
Proof.
  intros HR. apply Read_Done_inv in HR.
  destruct HR as (r & Hi & [->|[n ->]]); simpl; [auto|].
  split; [reflexivity|]. split; [apply length_insert|]. split.
  - rewrite list_lookup_insert_eq by (eapply lookup_lt_Some; eassumption).
    rewrite Hi. reflexivity.
  - intros j Hj. apply list_lookup_insert_ne. congruence.
Qed.

(** C9.  A [Read] that returns leaves the stream (storage, closed flag,
    epoch) as it was and changes no other reader; of its own reader it keeps
    the captured epoch.  Hence whatever another reader would have read
    before the call, it reads after it: nothing has been consumed on its
    behalf. *)
Theorem Read_touches_only_its_reader
        (w w' : world) (i : nat) (p : list byte)
        (a : Z * option error * list byte) :
  Read i p w = Done a w' ->
  buffer w' = buffer w /\
  length (readers w') = length (readers w) /\
  mark <$> readers w' !! i = mark <$> readers w !! i /\
  (forall j, j <> i -> readers w' !! j = readers w !! j) /\
  (forall j q, j <> i -> outcome_of (Read j q w') = outcome_of (Read j q w)).
Proof.
  intros HR. destruct (Read_frame w w' i p a HR) as (Hb & Hl & Hm & Hj).
  repeat split; try assumption.
  intros j q Hne. apply Read_outcome_local; auto.
Qed.

(** The same over any number of reads through other readers, parked ones
    included. *)
Lemma reads_by_others_invisible
      (j : nat) (ops : list op) (w w' : world) (es : list event) :
  reads_by_others j ops = true ->
  run ops w = Done es w' ->
  buffer w' = buffer w /\ readers w' !! j = readers w !! j /\
  (forall q, outcome_of (Read j q w') = outcome_of (Read j q w)).
Proof.
  revert w es. induction ops as [|o ops IH]; intros w es Ho Hr.
  - inversion Hr; subst. auto.
  - simpl in Ho. apply andb_true_iff in Ho. destruct Ho as [Ho Hos].
    apply run_cons_inv in Hr. destruct Hr as (e & w1 & es' & Hs & Hr & _).
    destruct (IH w1 es' Hos Hr) as (Hb & Hj & Hq).
    destruct o; try discriminate.
    apply negb_true_iff, Nat.eqb_neq in Ho.
    apply attempt_exec_inv in Hs. destruct Hs as [[_ ->]|[a HR]]; [auto|].
    destruct (Read_frame w w1 i p a HR) as (Hb1 & _ & _ & Hj1).
    assert (Hj' : readers w' !! j = readers w !! j)
      by (rewrite Hj; apply Hj1; congruence).
    assert (Hb' : buffer w' = buffer w) by congruence.
    repeat split; try assumption.
    intros q. apply Read_outcome_local; assumption.
Qed.

(** ** Reset *)

Lemma append_cap_pos (s : Slice.t) (p : list byte) :
  p <> [] -> 0 < Slice.cap (Slice.append s p).
Proof.
  intros Hp. unfold Slice.append.
  assert (Hlen : 0 < Z.of_nat (length p)) by (destruct p; [congruence|simpl; lia]).
  assert (Hs : 0 <= Slice.len s) by (unfold Slice.len; lia).
  destruct (Slice.len s + Z.of_nat (length p) <=? Slice.cap s) eqn:Hfit.
  - apply Z.leb_le in Hfit. destruct s as [|l c]; simpl in *; lia.
  - simpl.
    pose proof (growslice_fits (Slice.cap s) (Slice.len s + Z.of_nat (length p))).
    lia.
Qed.

Lemma Write_success_cap_pos (w w' : world) (p : list byte) (n : Z) :
  p <> [] -> Write p w = Done (n, None) w' -> 0 < Slice.cap (buf (buffer w')).
Proof.
  intros Hp HW. destruct (eof (buffer w)) eqn:He.
  - rewrite Write_closed in HW by assumption. discriminate.
  - rewrite Write_open in HW by assumption. inversion HW; subst; simpl.
    apply append_cap_pos. assumption.
Qed.

Lemma to0_cap (s : Slice.t) : Slice.cap (Slice.to0 s) = Slice.cap s.
Proof. destruct s; reflexivity. Qed.

Lemma to0_len (s : Slice.t) : Slice.len (Slice.to0 s) = 0.
Proof. destruct s; reflexivity. Qed.

(** No call gives allocated space back. *)
Lemma step_keeps_cap_pos (o : op) (w w' : world) (e : event) :
  0 < Slice.cap (buf (buffer w)) ->
  attempt (exec o) w = Done e w' ->
  0 < Slice.cap (buf (buffer w')).
Proof.
  intros Hc Hs. apply attempt_exec_inv in Hs. destruct o.
  - destruct Hs as (n & err & HW). destruct p as [|x p].
    + rewrite Write_empty in HW. inversion HW; subst. assumption.
    + destruct (eof (buffer w)) eqn:He.
      * rewrite Write_closed in HW by (assumption || discriminate).
        inversion HW; subst. assumption.
      * rewrite Write_open in HW by (assumption || discriminate).
        inversion HW; subst; simpl. apply append_cap_pos. discriminate.
  - destruct Hs as (err & HC). rewrite Close_eq in HC.
    inversion HC; subst; simpl. assumption.
  - rewrite Reset_eq in Hs. inversion Hs; subst; simpl.
    rewrite to0_cap. assumption.
  - destruct Hs as (k & HN). rewrite NewReader_eq in HN.
    inversion HN; subst; simpl. assumption.
  - destruct Hs as [[_ ->]|[a HR]]; [assumption|].
    apply Read_Done_inv in HR.
    destruct HR as (r & _ & [->|[n ->]]); simpl; assumption.
Qed.

Lemma run_keeps_cap_pos (ops : list op) (w w' : world) (es : list event) :
  0 < Slice.cap (buf (buffer w)) ->
  run ops w = Done es w' ->
  0 < Slice.cap (buf (buffer w')).
Proof.
  revert w es. induction ops as [|o ops IH]; intros w es Hc Hr.
  - inversion Hr; subst. assumption.
  - apply run_cons_inv in Hr. destruct Hr as (e & w1 & es' & Hs & Hr & _).
    eapply IH; [|eassumption]. eapply step_keeps_cap_pos; eassumption.
Qed.

Lemma written_cap_pos (w : world) : written w -> 0 < Slice.cap (buf (buffer w)).
Proof.
  intros (w0 & p & n & w1 & ops & es & Hp & HW & Hr).
  eapply run_keeps_cap_pos; [|eassumption].
  eapply Write_success_cap_pos; eassumption.
Qed.

(** C10.  In every state [Reset] returns, opens the stream, empties the
    storage without changing its capacity, flips the epoch and leaves the
    readers alone: afterwards [Len] reports 0 and [Cap] what it reported
    before.  On a stream to which data has been written that capacity is
    positive. *)
Theorem Reset_truncates_and_flips (w : world) :
  exists b' c,
    Reset w = Done tt {| buffer := b'; readers := readers w |} /\
    eof b' = false /\
    set b' = negb (set (buffer w)) /\
    Slice.elems (buf b') = [] /\
    Len {| buffer := b'; readers := readers w |}
      = Done 0 {| buffer := b'; readers := readers w |} /\
    Cap w = Done c w /\
    Cap {| buffer := b'; readers := readers w |}
      = Done c {| buffer := b'; readers := readers w |} /\
    (written w -> 0 < c).
Proof.
  rewrite Reset_eq. eexists. exists (Slice.cap (buf (buffer w))).
  split; [reflexivity|]. simpl.
  split; [reflexivity|]. split; [reflexivity|].
  split; [destruct (buf (buffer w)); reflexivity|].
  unfold Len, Cap. step_M. simpl. rewrite to0_len, to0_cap.
  repeat split. apply written_cap_pos.
Qed.

(** ** The offset invariant and where it breaks *)

(** Every call but [Reset] keeps the offsets of current readers within the
    storage. *)
Lemma step_keeps_offsets (o : op) (w w' : world) (e : event) :
  is_Reset o = false ->
  Slice.len (buf (buffer w)) <= GoInt.max_int ->
  offsets_nonneg w ->
  offsets_in_bounds w ->
  attempt (exec o) w = Done e w' ->
  offsets_nonneg w' /\ offsets_in_bounds w'.
Proof.
  intros Ho Hmax Hnn Hin Hs. apply attempt_exec_inv in Hs.
  destruct o; try discriminate.
  - destruct Hs as (n & err & HW). destruct p as [|x p].
    { rewrite Write_empty in HW. inversion HW; subst. auto. }
    destruct (eof (buffer w)) eqn:He.
    { rewrite Write_closed in HW by (assumption || discriminate).
      inversion HW; subst. auto. }
    rewrite Write_open in HW by (assumption || discriminate).
    inversion HW; subst. split; [exact Hnn|].
    intros i r Hi Hm; simpl in *. specialize (Hin i r Hi Hm).
    unfold Slice.len in *.
    rewrite append_elems, elems_fresh_if_nil, length_app. lia.
  - destruct Hs as (err & HC). rewrite Close_eq in HC.
    inversion HC; subst. auto.
  - destruct Hs as (k & HN). rewrite NewReader_eq in HN.
    inversion HN; subst.
    assert (Hcase : forall i r,
               (readers w ++ [{| off := 0; mark := set (buffer w) |}]) !! i = Some r ->
               readers w !! i = Some r \/ off r = 0).
    { intros i r Hi. apply lookup_app_Some in Hi.
      destruct Hi as [Hi|[_ Hi]]; [now left|right].
      destruct (i - length (readers w))%nat; simpl in Hi; [|discriminate].
      inversion Hi. reflexivity. }
    split; intros i r Hi; simpl in *; destruct (Hcase i r Hi) as [Hold|Hz].
    + eauto.
    + lia.
    + intros Hm. eauto.
    + intros _. unfold Slice.len. lia.
  - destruct Hs as [[_ ->]|[a HR]]; [auto|].
    destruct (readers w !! i) as [r|] eqn:Hi.
    2: { rewrite Read_no_reader in HR by assumption. discriminate. }
    destruct (bool_decide (mark r = set (buffer w))) eqn:Hm.
    2: { apply bool_decide_eq_false in Hm.
         rewrite (Read_discontinued w i r p Hi Hm) in HR.
         inversion HR; subst. auto. }
    apply bool_decide_eq_true in Hm.
    pose proof (Hnn i r Hi) as H0. pose proof (Hin i r Hi Hm) as H1.
    destruct (Z.eq_dec (off r) (Slice.len (buf (buffer w)))) as [Heq|Hlt].
    { destruct (eof (buffer w)) eqn:He.
      - rewrite (Read_at_EOF w i r p Hi Hm Heq He) in HR.
        inversion HR; subst. auto.
      - rewrite (Read_waits w i r p Hi He Heq Hm) in HR.
        destruct (sig (buffer w)); discriminate. }
    rewrite (Read_copy_eq w i r p Hi Hm) in HR by lia.
    inversion HR; subst; clear HR.
    split; intros j rj Hj; simpl in *.
    + destruct (decide (i = j)) as [->|Hne].
      * rewrite list_lookup_insert_eq in Hj by (eapply lookup_lt_Some; eassumption).
        inversion Hj; subst; simpl. lia.
      * rewrite list_lookup_insert_ne in Hj by assumption. eauto.
    + intros Hmj. destruct (decide (i = j)) as [->|Hne].
      * rewrite list_lookup_insert_eq in Hj by (eapply lookup_lt_Some; eassumption).
        inversion Hj; subst; simpl. lia.
      * rewrite list_lookup_insert_ne in Hj by assumption. eauto.
Qed.


(** With the offsets in bounds and the condition variable in place, a
    [Read] through an existing reader does not fault. *)
Lemma Read_safe_when_in_bounds (w : world) (i : nat) (r : reader) (p : list byte) :
  readers w !! i = Some r ->
  sig (buffer w) = true ->
  offsets_nonneg w ->
  offsets_in_bounds w ->
  forall f, Read i p w <> Fault f.
Proof.
  intros Hi Hsig Hnn Hin f.
  destruct (bool_decide (mark r = set (buffer w))) eqn:Hm.
  2: { apply bool_decide_eq_false in Hm.
       rewrite (Read_discontinued w i r p Hi Hm). discriminate. }
  apply bool_decide_eq_true in Hm.
  pose proof (Hnn i r Hi) as H0. pose proof (Hin i r Hi Hm) as H1.
  destruct (Z.eq_dec (off r) (Slice.len (buf (buffer w)))) as [Heq|Hlt].
  - destruct (eof (buffer w)) eqn:He.
    + rewrite (Read_at_EOF w i r p Hi Hm Heq He). discriminate.
    + rewrite (Read_waits w i r p Hi He Heq Hm), Hsig. discriminate.
  - rewrite (Read_copies w i r p Hi Hm Hlt).
    destruct (from_in_bounds (buf (buffer w)) (off r)) as (src & -> & _);
      [lia | discriminate].
Qed.

(** The storage grows by no more than what is offered. *)
Lemma step_len_bound (o : op) (w w' : world) (e : event) :
  attempt (exec o) w = Done e w' ->
  Slice.len (buf (buffer w')) <= Slice.len (buf (buffer w)) + op_bytes o.
Proof.
  intros Hs. apply attempt_exec_inv in Hs.
  assert (H0 : 0 <= Slice.len (buf (buffer w))) by (unfold Slice.len; lia).
  destruct o; simpl.
  - destruct Hs as (n & err & HW). destruct p as [|x p].
    { rewrite Write_empty in HW. inversion HW; subst. simpl. lia. }
    destruct (eof (buffer w)) eqn:He.
    { rewrite Write_closed in HW by (assumption || discriminate).
      inversion HW; subst. lia. }
    rewrite Write_open in HW by (assumption || discriminate).
    inversion HW; subst; simpl. unfold Slice.len.
    rewrite append_elems, elems_fresh_if_nil, length_app. simpl. lia.
  - destruct Hs as (err & HC). rewrite Close_eq in HC.
    inversion HC; subst; simpl. lia.
  - rewrite Reset_eq in Hs. inversion Hs; subst; simpl. rewrite to0_len. lia.
  - destruct Hs as (k & HN). rewrite NewReader_eq in HN.
    inversion HN; subst; simpl. lia.
  - destruct Hs as [[_ ->]|[a HR]]; [lia|].
    apply Read_Done_inv in HR.
    destruct HR as (r & _ & [->|[n ->]]); simpl; lia.
Qed.

(** Once a reader exists the condition variable does. *)
Lemma step_keeps_sig (o : op) (w w' : world) (e : event) :
  sig_installed w ->
  attempt (exec o) w = Done e w' ->
  sig_installed w'.
Proof.
  unfold sig_installed. intros Hsig Hs. apply attempt_exec_inv in Hs.
  destruct o.
  - destruct Hs as (n & err & HW). destruct p as [|x p].
    { rewrite Write_empty in HW. inversion HW; subst. assumption. }
    destruct (eof (buffer w)) eqn:He.
    { rewrite Write_closed in HW by (assumption || discriminate).
      inversion HW; subst. assumption. }
    rewrite Write_open in HW by (assumption || discriminate).
    inversion HW; subst; simpl. assumption.
  - destruct Hs as (err & HC). rewrite Close_eq in HC.
    inversion HC; subst; simpl. assumption.
  - rewrite Reset_eq in Hs. inversion Hs; subst; simpl. assumption.
  - destruct Hs as (k & HN). rewrite NewReader_eq in HN.
    inversion HN; subst; simpl. reflexivity.
  - destruct Hs as [[_ ->]|[a HR]]; [assumption|].
    apply Read_Done_inv in HR.
    destruct HR as (r & Hi & [->|[n ->]]); simpl; [assumption|].
    intros _. apply Hsig. intros Hnil. rewrite Hnil in Hi. discriminate.
Qed.

(** In such a state a call can only fault for want of its reader. *)
Lemma step_fault_inv (o : op) (w : world) (f : fault) :
  offsets_nonneg w ->
  offsets_in_bounds w ->
  sig_installed w ->
  attempt (exec o) w = Fault f ->
  f = NoSuchReader.
Proof.
  intros Hnn Hin Hsig. unfold attempt, exec. step_M. destruct o.
  - destruct (Write_total w p) as (n & err & w1 & ->). discriminate.
  - rewrite Close_eq. discriminate.
  - rewrite Reset_eq. discriminate.
  - rewrite NewReader_eq. discriminate.
  - destruct (readers w !! i) as [r|] eqn:Hi.
    + assert (Hs : sig (buffer w) = true).
      { apply Hsig. intros Hnil. rewrite Hnil in Hi. discriminate. }
      pose proof (Read_safe_when_in_bounds w i r p Hi Hs Hnn Hin) as Hsafe.
      destruct (Read i p w) as [[[n err] p'] w1| |f']; try discriminate.
      exfalso. apply (Hsafe f'). reflexivity.
    + rewrite Read_no_reader by assumption. intros Heq. inversion Heq. reflexivity.
Qed.

Lemma run_cons_fault_inv (o : op) (ops : list op) (w : world) (f : fault) :
  run (o :: ops) w = Fault f ->
  attempt (exec o) w = Fault f \/
  exists e w1, attempt (exec o) w = Done e w1 /\ run ops w1 = Fault f.
Proof.
  simpl. step_M. fold (run ops).
  destruct (attempt (exec o) w) as [e w1| |f'] eqn:Hs; try discriminate.
  - destruct (run ops w1) as [es' w2| |f'] eqn:Hr; try discriminate.
    intros Heq. inversion Heq; subst. right. eauto.
  - intros Heq. inversion Heq; subst. now left.
Qed.

(** Without [Reset], and while the storage stays within the range of
    [int], no schedule faults through an existing reader. *)
Lemma run_without_Reset_no_fault (ops : list op) (w : world) (f : fault) :
  no_Reset ops = true ->
  Slice.len (buf (buffer w)) + bytes_offered ops <= GoInt.max_int ->
  offsets_nonneg w ->
  offsets_in_bounds w ->
  sig_installed w ->
  run ops w = Fault f ->
  f = NoSuchReader.
Proof.
  revert w. induction ops as [|o ops IH]; intros w Hn Hmax Hnn Hin Hsig Hr.
  - discriminate.
  - simpl in Hn, Hmax. apply andb_true_iff in Hn. destruct Hn as [Ho Hn].
    apply negb_true_iff in Ho.
    assert (Hops : 0 <= bytes_offered ops).
    { clear. induction ops as [|o' ops' IH']; simpl; [lia|].
      destruct o'; simpl; lia. }
    assert (Hob : 0 <= op_bytes o) by (destruct o; simpl; lia).
    apply run_cons_fault_inv in Hr.
    destruct Hr as [Hf|(e & w1 & Hs & Hr)].
    + eapply step_fault_inv; eassumption.
    + pose proof (step_len_bound o w w1 e Hs) as Hlen.
      destruct (step_keeps_offsets o w w1 e Ho ltac:(lia) Hnn Hin Hs) as [Hnn1 Hin1].
      pose proof (step_keeps_sig o w w1 e Hsig Hs) as Hsig1.
      apply (IH w1); try assumption. lia.
Qed.

Lemma init_without_Reset_no_fault (ops : list op) (f : fault) :
  no_Reset ops = true ->
  bytes_offered ops <= GoInt.max_int ->
  run ops init = Fault f ->
  f = NoSuchReader.
Proof.
  intros Hn Hmax Hr.
  assert (Hnn : offsets_nonneg init) by (intros i r Hi; discriminate).
  assert (Hin : offsets_in_bounds init) by (intros i r Hi; discriminate).
  assert (Hsig : sig_installed init) by (intros Hne; exfalso; now apply Hne).
  exact (run_without_Reset_no_fault ops init f Hn Hmax Hnn Hin Hsig Hr).
Qed.

(** A slice long enough receives all that is stored from the reader's
    offset on: a reader created late, with offset 0, receives the whole
    storage. *)
Lemma Read_drains (w : world) (i : nat) (r : reader) (p : list byte) :
  readers w !! i = Some r ->
  mark r = set (buffer w) ->
  0 <= off r < Slice.len (buf (buffer w)) ->
  Slice.len (buf (buffer w)) <= GoInt.max_int ->
  Slice.len (buf (buffer w)) - off r <= Z.of_nat (length p) ->
  exists w',
    Read i p w =
    Done (Slice.len (buf (buffer w)) - off r, None,
          drop (Z.to_nat (off r)) (Slice.elems (buf (buffer w)))
            ++ drop (Z.to_nat (Slice.len (buf (buffer w)) - off r)) p)
         w' /\
    (off <$> readers w' !! i) = Some (Slice.len (buf (buffer w))).
Proof.
  intros Hi Hm Hoff Hmax Hp.
  rewrite (Read_copy_eq w i r p Hi Hm Hoff Hmax).
  rewrite Z.min_r by lia. eexists. split.
  - rewrite take_ge; [reflexivity|].
    rewrite length_drop. unfold Slice.len in *. lia.
  - simpl. rewrite list_lookup_insert_eq by (eapply lookup_lt_Some; eassumption).
    simpl. f_equal. lia.
Qed.

(** C1.  The schedule "write aa, create a reader, read, reset, reset" runs
    without fault and leaves the reader with offset 2 on an empty storage in
    what is again its own epoch; its next [Read] slices [buf[2:]] of a
    storage of length 0, which is Go's "slice bounds out of range" fault,
    not a returned error. *)
Theorem Read_after_two_Resets_faults :
  run double_reset init
  = Done [EvWrite 2 None; EvNewReader 0;
          EvRead 2 None (bytes_aa ++ zeros 2); EvReset; EvReset]
         after_double_reset /\
  Slice.from (buf (buffer after_double_reset)) 2 = None /\
  Read 0 (zeros 4) after_double_reset = Fault SliceBoundsOutOfRange.
Proof. repeat split. Qed.

(** C2.  The state that schedule reaches has a reader whose captured epoch
    equals the stream's and whose offset, 2, exceeds the storage length,
    0. *)
Theorem offset_beyond_storage_after_two_Resets :
  reachable after_double_reset /\
  readers after_double_reset !! 0%nat = Some {| off := 2; mark := false |} /\
  set (buffer after_double_reset) = false /\
  Slice.len (buf (buffer after_double_reset)) = 0 /\
  ~ offsets_in_bounds after_double_reset.
Proof.
  split; [|repeat split].
  - exists double_reset. eexists. reflexivity.
  - intros Hin.
    specialize (Hin 0%nat {| off := 2; mark := false |} eq_refl eq_refl).
    simpl in Hin. unfold Slice.len in Hin. simpl in Hin. lia.
Qed.

End Facts.

(** * Evaluations *)

(** C3 as stated fails for the empty input: on the closed empty buffer
    [Write] of no bytes returns no error. *)
Lemma Write_nothing_after_Close_succeeds :
  ~ (forall (p : list byte) (w w' : world) (ops : list op) (es : list event),
        no_Reset ops = true ->
        run (OpClose :: ops) w = Done es w' ->
        exists n w'', Write p w' = Done (n, Some errClosed) w'').
Proof.
  intros Hall.
  destruct (Hall [] init closed_empty [] [EvClose None] eq_refl eq_refl)
    as (n & w'' & HW).
  discriminate HW.
Qed.

Lemma Write_after_Close_rejected_witness :
  bytes_aa <> [] /\
  no_Reset after_Close_calls = true /\
  run (OpClose :: after_Close_calls) sample_open
  = Done [EvClose None; EvWrite 0 (Some errClosed);
          EvRead 4 None (bytes_aa ++ bytes_bb); EvNewReader 2]
         sample_after_Close /\
  Write bytes_aa sample_after_Close = Done (0, Some errClosed) sample_after_Close.
Proof.
  assert (Hp : bytes_aa <> []) by discriminate.
  assert (Hn : no_Reset after_Close_calls = true) by reflexivity.
  assert (Hr : run (OpClose :: after_Close_calls) sample_open
               = Done [EvClose None; EvWrite 0 (Some errClosed);
                       EvRead 4 None (bytes_aa ++ bytes_bb); EvNewReader 2]
                      sample_after_Close) by reflexivity.
  exact (conj Hp (conj Hn (conj Hr
           (Write_after_Close_rejected bytes_aa sample_open sample_after_Close
              after_Close_calls _ Hp Hn Hr)))).
Defined.

Lemma Write_appends_all_witness :
  bytes_bb <> [] /\
  eof (buffer written_aa) = false /\
  exists b',
    Write bytes_bb written_aa
    = Done (2, None) {| buffer := b'; readers := [] |} /\
    Slice.elems (buf b') = bytes_aa ++ bytes_bb /\
    Slice.len (buf b') = 4 /\
    eof b' = false /\
    set b' = false.
Proof.
  assert (Hp : bytes_bb <> []) by discriminate.
  assert (Ho : eof (buffer written_aa) = false) by reflexivity.
  exact (conj Hp (conj Ho (Write_appends_all written_aa bytes_bb Hp Ho))).
Defined.

Lemma Read_stale_epoch_discontinued_witness :
  readers sample_stale !! 1%nat = Some {| off := 0; mark := false |} /\
  false <> set (buffer sample_stale) /\
  Slice.len (buf (buffer sample_stale)) = 2 /\
  Read 1 (zeros 4) sample_stale
  = Done (0, Some ErrUnexpectedEOF, zeros 4) sample_stale.
Proof.
  assert (Hi : readers sample_stale !! 1%nat = Some {| off := 0; mark := false |})
    by reflexivity.
  assert (Hm : mark {| off := 0; mark := false |} <> set (buffer sample_stale))
    by discriminate.
  exact (conj Hi (conj Hm (conj eq_refl
           (Read_stale_epoch_discontinued sample_stale 1 _ (zeros 4) Hi Hm)))).
Defined.

Lemma Read_EOF_repeatable_witness :
  readers sample_closed !! 0%nat = Some {| off := 4; mark := false |} /\
  Read 0 (zeros 4) sample_closed = Done (0, Some EOF, zeros 4) sample_closed /\
  forall ops es w' p,
    no_Reset ops = true ->
    run ops sample_closed = Done es w' ->
    Read 0 p w' = Done (0, Some EOF, p) w' /\
    readers w' !! 0%nat = Some {| off := 4; mark := false |} /\
    buf (buffer w') = buf (buffer sample_closed) /\
    eof (buffer w') = true /\
    set (buffer w') = set (buffer sample_closed).
Proof.
  assert (Hi : readers sample_closed !! 0%nat = Some {| off := 4; mark := false |})
    by reflexivity.
  destruct (Read_EOF_repeatable sample_closed 0 _ Hi eq_refl eq_refl eq_refl)
    as [Hnow Hlater].
  exact (conj Hi (conj (Hnow (zeros 4)) Hlater)).
Defined.

Lemma Read_copies_available_witness :
  readers sample_open !! 0%nat = Some {| off := 2; mark := false |} /\
  Read 0 (zeros 3) sample_open
  = Done (2, None, bytes_bb ++ zeros 1) sample_open_read.
Proof.
  assert (Hi : readers sample_open !! 0%nat = Some {| off := 2; mark := false |})
    by reflexivity.
  assert (Hoff : 0 <= 2 < Slice.len (buf (buffer sample_open)))
    by (vm_compute; split; [discriminate | reflexivity]).
  assert (Hmax : Slice.len (buf (buffer sample_open)) <= GoInt.max_int)
    by (vm_compute; discriminate).
  exact (conj Hi
           (Read_copies_available sample_open 0 _ (zeros 3) Hi eq_refl Hoff Hmax)).
Defined.

Lemma Read_touches_only_its_reader_witness :
  Read 0 (zeros 3) sample_open
  = Done (2, None, bytes_bb ++ zeros 1) sample_open_read /\
  buffer sample_open_read = buffer sample_open /\
  readers sample_open_read !! 1%nat = readers sample_open !! 1%nat /\
  forall q, outcome_of (Read 1 q sample_open_read)
            = outcome_of (Read 1 q sample_open).
Proof.
  assert (HR : Read 0 (zeros 3) sample_open
               = Done (2, None, bytes_bb ++ zeros 1) sample_open_read)
    by reflexivity.
  destruct (Read_touches_only_its_reader sample_open sample_open_read 0
              (zeros 3) _ HR) as (Hb & _ & _ & Hj & Hq).
  assert (Hne : 1%nat <> 0%nat) by discriminate.
  exact (conj HR (conj Hb (conj (Hj 1%nat Hne) (fun q => Hq 1%nat q Hne)))).
Defined.

Lemma Reset_truncates_and_flips_witness :
  written written_aa /\
  exists b' c,
    Reset written_aa = Done tt {| buffer := b'; readers := [] |} /\
    Len {| buffer := b'; readers := [] |}
      = Done 0 {| buffer := b'; readers := [] |} /\
    Cap written_aa = Done c written_aa /\
    Cap {| buffer := b'; readers := [] |}
      = Done c {| buffer := b'; readers := [] |} /\
    0 < c.
Proof.
  assert (Hw : written written_aa).
  { exists init, bytes_aa, 2, written_aa, [], [].
    split; [discriminate|]. split; reflexivity. }
  destruct (Reset_truncates_and_flips written_aa)
    as (b' & c & HR & _ & _ & _ & HL & HC & HC' & Hpos).
  exact (conj Hw (ex_intro _ b' (ex_intro _ c
           (conj HR (conj HL (conj HC (conj HC' (Hpos Hw)))))))).
Defined.

(** * Further properties of the package *)

Section Beyond.
Context `{GoRuntime}.

(** ** Close *)

(** [Close] always returns nil and closes the stream; storage, epoch,
    condition variable and readers stay as they are, and a second [Close]
    changes nothing at all. *)
Theorem Close_idempotent (w : world) :
  exists w1,
    Close w = Done None w1 /\
    eof (buffer w1) = true /\
    buf (buffer w1) = buf (buffer w) /\
    set (buffer w1) = set (buffer w) /\
    sig (buffer w1) = sig (buffer w) /\
    readers w1 = readers w /\
    Close w1 = Done None w1.
Proof.
  eexists. split; [apply Close_eq|]. simpl. repeat split.
Qed.


(** ** Write *)

(** The only error [write] ever returns is [errClosed], and it returns it
    exactly for a non-empty input on a closed stream. *)
Theorem write_fails_iff_closed_and_nonempty (w : world) (s : list byte) :
  exists w',
    write s w
    = Done (if eof (buffer w) && negb (Z.of_nat (length s) =? 0)
            then Some errClosed else None) w'.
Proof.
  unfold write. step_M. destruct s as [|x s].
  - rewrite Write_empty, andb_false_r. eauto.
  - assert (Hl : (Z.of_nat (length (x :: s)) =? 0) = false)
      by (apply length_pos_nonempty; discriminate).
    rewrite Hl, andb_true_r. destruct (eof (buffer w)) eqn:He.
    + rewrite Write_closed by (assumption || discriminate). eauto.
    + rewrite Write_open by (assumption || discriminate). eauto.
Qed.


(** Writes accumulate: on an open stream a run of writes all succeed with
    their full counts, and afterwards [Bytes] and [String] return the old
    storage followed by the inputs in order and [Len] the old length plus
    their total. *)
Theorem Writes_accumulate (w : world) (ps : list (list byte)) :
  eof (buffer w) = false ->
  exists w',
    run (map OpWrite ps) w
    = Done (map (fun p => EvWrite (Z.of_nat (length p)) None) ps) w' /\
    Bytes w' = Done (Slice.elems (buf (buffer w)) ++ concat ps) w' /\
    String w' = Done (Slice.elems (buf (buffer w)) ++ concat ps) w' /\
    Len w' = Done (Slice.len (buf (buffer w)) + room ps) w' /\
    readers w' = readers w.
Proof.
  revert w. induction ps as [|p ps IH]; intros w He.
  - exists w. simpl. unfold Bytes, String, Len. step_M.
    rewrite append_elems, app_nil_r, Z.add_0_r. simpl. repeat split.
  - assert (Hstep : exists w1,
               Write p w = Done (Z.of_nat (length p), None) w1 /\
               eof (buffer w1) = false /\
               Slice.elems (buf (buffer w1)) = Slice.elems (buf (buffer w)) ++ p /\
               readers w1 = readers w).
    { destruct p as [|x p].
      - exists w. rewrite Write_empty, app_nil_r. auto.
      - rewrite Write_open by (assumption || discriminate). eexists.
        split; [reflexivity|]. simpl.
        rewrite append_elems, elems_fresh_if_nil. auto. }
    destruct Hstep as (w1 & HW & He1 & Hel & Hrs).
    destruct (IH w1 He1) as (w' & Hrun & HB & HS & HL & Hr').
    exists w'. split.
    { simpl. unfold attempt, exec. step_M. fold (run (map OpWrite ps)).
      rewrite HW. simpl. rewrite Hrun. reflexivity. }
    rewrite HB, HS, HL, Hr', Hrs. simpl. unfold Slice.len. rewrite Hel.
    rewrite length_app, <- app_assoc. repeat split. f_equal. lia.
Qed.

(** ** What a call can do to a reader *)

(** A [Read] that returns has moved its reader forward, by zero or more,
    and has changed nothing else. *)
Lemma Read_Done_off (w w' : world) (i : nat) (r : reader) (p : list byte)
      (a : Z * option error * list byte) :
  readers w !! i = Some r ->
  Slice.len (buf (buffer w)) <= GoInt.max_int ->
  Read i p w = Done a w' ->
  exists n, 0 <= n /\
    w' = {| buffer := buffer w;
            readers := <[i := {| off := off r + n; mark := mark r |}]> (readers w) |}.
Proof.
  intros Hi Hmax HR.
  assert (Hsame : w = {| buffer := buffer w;
                         readers := <[i := {| off := off r + 0; mark := mark r |}]>
                                      (readers w) |}).
  { rewrite Z.add_0_r. destruct r as [o m]; simpl.
    rewrite list_insert_id by assumption. destruct w; reflexivity. }
  destruct (bool_decide (mark r = set (buffer w))) eqn:Hm.
  2: { apply bool_decide_eq_false in Hm.
       rewrite (Read_discontinued w i r p Hi Hm) in HR.
       inversion HR; subst. exists 0. split; [lia | exact Hsame]. }
  apply bool_decide_eq_true in Hm.
  destruct (Z.eq_dec (off r) (Slice.len (buf (buffer w)))) as [Heq|Hne].
  { destruct (eof (buffer w)) eqn:He.
    - rewrite (Read_at_EOF w i r p Hi Hm Heq He) in HR.
      inversion HR; subst. exists 0. split; [lia | exact Hsame].
    - rewrite (Read_waits w i r p Hi He Heq Hm) in HR.
      destruct (sig (buffer w)); discriminate. }
  pose proof HR as HR2. rewrite (Read_copies w i r p Hi Hm Hne) in HR2.
  destruct (Slice.from (buf (buffer w)) (off r)) as [src|] eqn:Hf; [|discriminate].
  unfold Slice.from in Hf.
  destruct ((0 <=? off r) && (off r <=? Slice.len (buf (buffer w)))) eqn:Hb;
    [|discriminate].
  apply andb_true_iff in Hb. destruct Hb as [Hlo Hhi].
  apply Z.leb_le in Hlo, Hhi. clear HR2 Hf.
  rewrite (Read_copy_eq w i r p Hi Hm) in HR by lia.
  inversion HR; subst. eexists. split; [|reflexivity]. lia.
Qed.

Lemma step_keeps_set (o : op) (w w' : world) (e : event) :
  is_Reset o = false ->
  attempt (exec o) w = Done e w' ->
  set (buffer w') = set (buffer w).
Proof.
  intros Ho Hs. apply attempt_exec_inv in Hs. destruct o; try discriminate.
  - destruct Hs as (n & err & HW). destruct p as [|x p].
    { rewrite Write_empty in HW. inversion HW; subst. reflexivity. }
    destruct (eof (buffer w)) eqn:He.
    { rewrite Write_closed in HW by (assumption || discriminate).
      inversion HW; subst. reflexivity. }
    rewrite Write_open in HW by (assumption || discriminate).
    inversion HW; subst. reflexivity.
  - destruct Hs as (err & HC). rewrite Close_eq in HC.
    inversion HC; subst. reflexivity.
  - destruct Hs as (k & HN). rewrite NewReader_eq in HN.
    inversion HN; subst. reflexivity.
  - destruct Hs as [[_ ->]|[a HR]]; [reflexivity|].
    apply Read_Done_inv in HR.
    destruct HR as (r & _ & [->|[n ->]]); reflexivity.
Qed.

Lemma step_keeps_mark (o : op) (w w' : world) (e : event) (i : nat) (r : reader) :
  attempt (exec o) w = Done e w' ->
  readers w !! i = Some r ->
  exists r', readers w' !! i = Some r' /\ mark r' = mark r.
Proof.
  intros Hs Hi. apply attempt_exec_inv in Hs. destruct o.
  - destruct Hs as (n & err & HW). destruct p as [|x p].
    { rewrite Write_empty in HW. inversion HW; subst. eauto. }
    destruct (eof (buffer w)) eqn:He.
    { rewrite Write_closed in HW by (assumption || discriminate).
      inversion HW; subst. eauto. }
    rewrite Write_open in HW by (assumption || discriminate).
    inversion HW; subst. eauto.
  - destruct Hs as (err & HC). rewrite Close_eq in HC.
    inversion HC; subst. eauto.
  - rewrite Reset_eq in Hs. inversion Hs; subst. eauto.
  - destruct Hs as (k & HN). rewrite NewReader_eq in HN.
    inversion HN; subst; simpl. exists r. split; [|reflexivity].
    apply lookup_app_l_Some. assumption.
  - destruct Hs as [[_ ->]|[a HR]]; [eauto|].
    apply Read_Done_inv in HR.
    destruct HR as (r0 & Hi0 & [->|[n ->]]); simpl; [eauto|].
    destruct (decide (i0 = i)) as [->|Hne].
    + rewrite list_lookup_insert_eq by (eapply lookup_lt_Some; eassumption).
      eexists. split; [reflexivity|]. simpl. congruence.
    + rewrite list_lookup_insert_ne by assumption. eauto.
Qed.

Lemma step_keeps_reader (o : op) (w w' : world) (e : event) (i : nat) (r : reader) :
  Slice.len (buf (buffer w)) <= GoInt.max_int ->
  attempt (exec o) w = Done e w' ->
  readers w !! i = Some r ->
  exists r', readers w' !! i = Some r' /\ mark r' = mark r /\ off r <= off r'.
Proof.
  intros Hmax Hs Hi.
  assert (Hother : forall w1, readers w1 = readers w ->
                     exists r', readers w1 !! i = Some r' /\
                                mark r' = mark r /\ off r <= off r').
  { intros w1 ->. exists r. repeat split; [assumption | lia]. }
  apply attempt_exec_inv in Hs. destruct o.
  - destruct Hs as (n & err & HW). destruct p as [|x p].
    { rewrite Write_empty in HW. inversion HW; subst. auto. }
    destruct (eof (buffer w)) eqn:He.
    { rewrite Write_closed in HW by (assumption || discriminate).
      inversion HW; subst. auto. }
    rewrite Write_open in HW by (assumption || discriminate).
    inversion HW; subst. auto.
  - destruct Hs as (err & HC). rewrite Close_eq in HC.
    inversion HC; subst. auto.
  - rewrite Reset_eq in Hs. inversion Hs; subst. auto.
  - destruct Hs as (k & HN). rewrite NewReader_eq in HN.
    inversion HN; subst; simpl. exists r.
    split; [apply lookup_app_l_Some; assumption|]. split; [reflexivity | lia].
  - destruct Hs as [[_ ->]|[a HR]]; [auto|].
    destruct (decide (i0 = i)) as [->|Hne].
    + destruct (Read_Done_off w w' i r p a Hi Hmax HR) as (n & Hn & ->); simpl.
      rewrite list_lookup_insert_eq by (eapply lookup_lt_Some; eassumption).
      eexists. split; [reflexivity|]. simpl. split; [reflexivity | lia].
    + apply Read_Done_inv in HR.
      destruct HR as (r0 & Hi0 & [->|[n ->]]); simpl; [auto|].
      rewrite list_lookup_insert_ne by assumption.
      exists r. repeat split; [assumption | lia].
Qed.

(** No call removes a reader or changes the epoch it captured, [Reset]
    included. *)
Theorem readers_keep_their_epoch
        (ops : list op) (w w' : world) (es : list event) (i : nat) (r : reader) :
  run ops w = Done es w' ->
  readers w !! i = Some r ->
  exists r', readers w' !! i = Some r' /\ mark r' = mark r.
Proof.
  revert w es r. induction ops as [|o ops IH]; intros w es r Hr Hi.
  - inversion Hr; subst. eauto.
  - apply run_cons_inv in Hr. destruct Hr as (e & w1 & es' & Hs & Hr & _).
    destruct (step_keeps_mark o w w1 e i r Hs Hi) as (r1 & Hi1 & Hm1).
    destruct (IH w1 es' r1 Hr Hi1) as (r' & Hi' & Hm').
    exists r'. split; [assumption | congruence].
Qed.

(** While the storage stays within the range of [int], no call moves a
    reader's offset backwards, [Reset] included. *)
Theorem offsets_never_decrease
        (ops : list op) (w w' : world) (es : list event) (i : nat) (r : reader) :
  Slice.len (buf (buffer w)) + bytes_offered ops <= GoInt.max_int ->
  run ops w = Done es w' ->
  readers w !! i = Some r ->
  exists r', readers w' !! i = Some r' /\ off r <= off r'.
Proof.
  revert w es r. induction ops as [|o ops IH]; intros w es r Hmax Hr Hi.
  - inversion Hr; subst. exists r. split; [assumption | lia].
  - simpl in Hmax.
    assert (Hops : 0 <= bytes_offered ops).
    { clear. induction ops as [|o' ops' IH']; simpl; [lia|].
      destruct o'; simpl; lia. }
    assert (Hob : 0 <= op_bytes o) by (destruct o; simpl; lia).
    apply run_cons_inv in Hr. destruct Hr as (e & w1 & es' & Hs & Hr & _).
    pose proof (step_len_bound o w w1 e Hs) as Hlen.
    destruct (step_keeps_reader o w w1 e i r ltac:(lia) Hs Hi)
      as (r1 & Hi1 & _ & Ho1).
    destruct (IH w1 es' r1 ltac:(lia) Hr Hi1) as (r' & Hi' & Ho').
    exists r'. split; [assumption | lia].
Qed.

(** ** Reset *)

(** One [Reset] discontinues every reader of the epoch it ends: until the
    next [Reset], whatever else is called, such a reader's [Read] answers
    [io.ErrUnexpectedEOF] with zero bytes. *)
Theorem Reset_discontinues_current_readers
        (w w' : world) (ops : list op) (es : list event)
        (i : nat) (r : reader) (p : list byte) :
  readers w !! i = Some r ->
  mark r = set (buffer w) ->
  no_Reset ops = true ->
  run (OpReset :: ops) w = Done es w' ->
  Read i p w' = Done (0, Some ErrUnexpectedEOF, p) w'.
Proof.
  intros Hi Hm Hn Hr.
  apply run_cons_inv in Hr. destruct Hr as (e & w1 & es1 & Hs & Hr & _).
  apply attempt_exec_inv in Hs. rewrite Reset_eq in Hs.
  assert (Hstale : exists r1, readers w1 !! i = Some r1 /\
                              mark r1 <> set (buffer w1)).
  { inversion Hs; subst; simpl. exists r. split; [assumption|].
    rewrite Hm. destruct (set (buffer w)); discriminate. }
  clear Hs Hi Hm. revert w1 es1 Hr Hstale.
  induction ops as [|o ops IH]; intros w1 es1 Hr (r1 & Hi1 & Hm1).
  - inversion Hr; subst. apply (Read_discontinued w' i r1 p Hi1 Hm1).
  - simpl in Hn. apply andb_true_iff in Hn. destruct Hn as [Ho Hn].
    apply negb_true_iff in Ho.
    apply run_cons_inv in Hr. destruct Hr as (e2 & w2 & es2 & Hs & Hr & _).
    destruct (step_keeps_mark o w1 w2 e2 i r1 Hs Hi1) as (r2 & Hi2 & Hm2).
    pose proof (step_keeps_set o w1 w2 e2 Ho Hs) as Hset.
    apply (IH Hn w2 es2 Hr). exists r2. split; [assumption | congruence].
Qed.

(** [Reset] reopens the stream and starts it afresh.  Whatever the state
    before (closed or not, any storage), after [Reset] a non-empty [Write]
    succeeds, and a reader created then reads exactly the new bytes from
    offset 0, nothing of the old storage. *)
Theorem Reset_starts_afresh (w : world) (p q : list byte) :
  p <> [] ->
  Z.of_nat (length p) <= GoInt.max_int ->
  (length p <= length q)%nat ->
  exists w1 w2 w3 w4,
    Reset w = Done tt w1 /\
    Write p w1 = Done (Z.of_nat (length p), None) w2 /\
    NewReader w2 = Done (length (readers w)) w3 /\
    Read (length (readers w)) q w3
    = Done (Z.of_nat (length p), None, p ++ drop (length p) q) w4 /\
    Slice.elems (buf (buffer w4)) = p.
Proof.
  intros Hp Hmax Hq.
  eexists. eexists. eexists. eexists.
  split; [apply Reset_eq|].
  split; [apply Write_open; [assumption | reflexivity]|].
  split; [rewrite NewReader_eq; reflexivity|].
  set (s := buf (buffer w)).
  assert (Hel : Slice.elems
                  (Slice.append (if Slice.isnil (Slice.to0 s)
                                 then Slice.make0 1024 else Slice.to0 s) p) = p).
  { rewrite append_elems, elems_fresh_if_nil. destruct s; reflexivity. }
  simpl. fold s. split.
  - rewrite (Read_copy_eq _ (length (readers w))
               {| off := 0; mark := negb (set (buffer w)) |} q).
    + simpl. fold s. unfold Slice.len. rewrite Hel. simpl.
      rewrite Z.sub_0_r, Z.min_r by lia. rewrite Nat2Z.id.
      change (Z.to_nat 0) with 0%nat. rewrite drop_0.
      rewrite take_ge by reflexivity. reflexivity.
    + simpl. apply list_lookup_middle. reflexivity.
    + reflexivity.
    + simpl. fold s. unfold Slice.len. rewrite Hel.
      destruct p; [congruence | simpl; lia].
    + simpl. fold s. unfold Slice.len. rewrite Hel. assumption.
  - simpl. exact Hel.
Qed.

(** ** When Read waits *)

(** [Read] suspends exactly when the stream is open, the reader has read
    all there is and is of the current epoch (and the condition variable
    exists): data, closure or a reset each make it return. *)
Theorem Read_waits_iff (w : world) (i : nat) (r : reader) (p : list byte) :
  readers w !! i = Some r ->
  (Read i p w = Waiting <->
   eof (buffer w) = false /\
   off r = Slice.len (buf (buffer w)) /\
   mark r = set (buffer w) /\
   sig (buffer w) = true).
Proof.
  intros Hi. split.
  - intros HR.
    destruct (bool_decide (mark r = set (buffer w))) eqn:Hm.
    2: { apply bool_decide_eq_false in Hm.
         rewrite (Read_discontinued w i r p Hi Hm) in HR. discriminate. }
    apply bool_decide_eq_true in Hm.
    destruct (Z.eq_dec (off r) (Slice.len (buf (buffer w)))) as [Heq|Hne].
    + destruct (eof (buffer w)) eqn:He.
      * rewrite (Read_at_EOF w i r p Hi Hm Heq He) in HR. discriminate.
      * rewrite (Read_waits w i r p Hi He Heq Hm) in HR.
        destruct (sig (buffer w)); [auto | discriminate].
    + rewrite (Read_copies w i r p Hi Hm Hne) in HR.
      destruct (Slice.from (buf (buffer w)) (off r)); discriminate.
  - intros (He & Hoff & Hm & Hsig).
    rewrite (Read_waits w i r p Hi He Hoff Hm), Hsig. reflexivity.
Qed.

Lemma run_keeps_sig (ops : list op) (w w' : world) (es : list event) :
  sig_installed w ->
  run ops w = Done es w' ->
  sig_installed w'.
Proof.
  revert w es. induction ops as [|o ops IH]; intros w es Hsig Hr.
  - inversion Hr; subst. assumption.
  - apply run_cons_inv in Hr. destruct Hr as (e & w1 & es' & Hs & Hr & _).
    eapply IH; [|eassumption]. eapply step_keeps_sig; eassumption.
Qed.

(** The condition variable is created with the first reader and never
    dropped, so in no state a schedule reaches does a [Read] dereference a
    nil [sig]. *)
Theorem reachable_Read_finds_sig (w : world) (i : nat) (p : list byte) :
  reachable w ->
  (readers w <> [] -> sig (buffer w) = true) /\
  Read i p w <> Fault NilDereference.
Proof.
  intros (ops & es & Hr).
  assert (Hsig : sig_installed w).
  { eapply run_keeps_sig; [|eassumption]. intros Hne. exfalso. now apply Hne. }
  split; [exact Hsig|].
  destruct (readers w !! i) as [r|] eqn:Hi.
  2: { rewrite Read_no_reader by assumption. discriminate. }
  assert (Hs : sig (buffer w) = true).
  { apply Hsig. intros Hnil. rewrite Hnil in Hi. discriminate. }
  destruct (bool_decide (mark r = set (buffer w))) eqn:Hm.
  2: { apply bool_decide_eq_false in Hm.
       rewrite (Read_discontinued w i r p Hi Hm). discriminate. }
  apply bool_decide_eq_true in Hm.
  destruct (Z.eq_dec (off r) (Slice.len (buf (buffer w)))) as [Heq|Hne].
  - destruct (eof (buffer w)) eqn:He.
    + rewrite (Read_at_EOF w i r p Hi Hm Heq He). discriminate.
    + rewrite (Read_waits w i r p Hi He Heq Hm), Hs. discriminate.
  - rewrite (Read_copies w i r p Hi Hm Hne).
    destruct (Slice.from (buf (buffer w)) (off r)); discriminate.
Qed.

(** ** Schedules without Reset *)

Lemma step_readers_length (o : op) (w w' : world) (e : event) :
  attempt (exec o) w = Done e w' ->
  length (readers w') =
  match o with
  | OpNewReader => S (length (readers w))
  | _ => length (readers w)
  end.
Proof.
  intros Hs. apply attempt_exec_inv in Hs. destruct o.
  - destruct Hs as (n & err & HW). destruct p as [|x p].
    { rewrite Write_empty in HW. inversion HW; subst. reflexivity. }
    destruct (eof (buffer w)) eqn:He.
    { rewrite Write_closed in HW by (assumption || discriminate).
      inversion HW; subst. reflexivity. }
    rewrite Write_open in HW by (assumption || discriminate).
    inversion HW; subst. reflexivity.
  - destruct Hs as (err & HC). rewrite Close_eq in HC.
    inversion HC; subst. reflexivity.
  - rewrite Reset_eq in Hs. inversion Hs; subst. reflexivity.
  - destruct Hs as (k & HN). rewrite NewReader_eq in HN.
    inversion HN; subst; simpl. rewrite length_app. simpl. lia.
  - destruct Hs as [[_ ->]|[a HR]]; [reflexivity|].
    apply Read_Done_inv in HR.
    destruct HR as (r & _ & [->|[n ->]]); simpl; [reflexivity|].
    apply length_insert.
Qed.

Lemma step_returns (o : op) (w : world) :
  offsets_nonneg w ->
  offsets_in_bounds w ->
  sig_installed w ->
  handles_ok (length (readers w)) [o] = true ->
  exists e w1, attempt (exec o) w = Done e w1.
Proof.
  intros Hnn Hin Hsig Hok.
  destruct (attempt (exec o) w) as [e w1| |f] eqn:Hs.
  - eauto.
  - unfold attempt in Hs. destruct (exec o w); discriminate.
  - pose proof (step_fault_inv o w f Hnn Hin Hsig Hs) as ->.
    exfalso. unfold attempt, exec in Hs. revert Hs. step_M. destruct o.
    + destruct (Write_total w p) as (n & err & w1 & ->). discriminate.
    + rewrite Close_eq. discriminate.
    + rewrite Reset_eq. discriminate.
    + rewrite NewReader_eq. discriminate.
    + simpl in Hok. rewrite andb_true_r in Hok. apply Nat.ltb_lt in Hok.
      destruct (lookup_lt_is_Some_2 (readers w) i Hok) as [r Hi].
      assert (Hs : sig (buffer w) = true).
      { apply Hsig. intros Hnil. rewrite Hnil in Hi. discriminate. }
      pose proof (Read_safe_when_in_bounds w i r p Hi Hs Hnn Hin NoSuchReader).
      destruct (Read i p w) as [[[n err] p'] w1| |f']; try discriminate.
      intros Heq. inversion Heq; subst. congruence.
Qed.

Lemma run_without_Reset_returns (ops : list op) (w : world) :
  no_Reset ops = true ->
  handles_ok (length (readers w)) ops = true ->
  Slice.len (buf (buffer w)) + bytes_offered ops <= GoInt.max_int ->
  offsets_nonneg w ->
  offsets_in_bounds w ->
  sig_installed w ->
  exists es w', run ops w = Done es w'.
Proof.
  revert w. induction ops as [|o ops IH]; intros w Hn Hok Hmax Hnn Hin Hsig.
  - exists [], w. reflexivity.
  - simpl in Hn, Hmax. apply andb_true_iff in Hn. destruct Hn as [Ho Hn].
    apply negb_true_iff in Ho.
    assert (Hops : 0 <= bytes_offered ops).
    { clear. induction ops as [|o' ops' IH']; simpl; [lia|].
      destruct o'; simpl; lia. }
    assert (Hob : 0 <= op_bytes o) by (destruct o; simpl; lia).
    assert (Hok1 : handles_ok (length (readers w)) [o] = true).
    { destruct o; simpl in *; try reflexivity.
      apply andb_true_iff in Hok. destruct Hok as [-> _]. reflexivity. }
    destruct (step_returns o w Hnn Hin Hsig Hok1) as (e & w1 & Hs).
    pose proof (step_len_bound o w w1 e Hs) as Hlen.
    destruct (step_keeps_offsets o w w1 e Ho ltac:(lia) Hnn Hin Hs) as [Hnn1 Hin1].
    pose proof (step_keeps_sig o w w1 e Hsig Hs) as Hsig1.
    pose proof (step_readers_length o w w1 e Hs) as Hlen1.
    assert (Hok' : handles_ok (length (readers w1)) ops = true).
    { rewrite Hlen1. destruct o; simpl in Hok; try assumption.
      apply andb_true_iff in Hok. destruct Hok as [_ Hok]. assumption. }
    destruct (IH w1 Hn Hok' ltac:(lia) Hnn1 Hin1 Hsig1) as (es & w' & Hr).
    exists (e :: es), w'. simpl. step_M. fold (run ops). rewrite Hs, Hr.
    reflexivity.
Qed.

(** If [Reset] is never called, the program never faults: from the empty
    buffer every schedule without [Reset] that offers no more bytes than an
    [int] can count, and reads only through readers it has created, runs to
    its end. *)
Theorem no_Reset_no_panic (ops : list op) :
  no_Reset ops = true ->
  handles_ok 0 ops = true ->
  bytes_offered ops <= GoInt.max_int ->
  exists es w, run ops init = Done es w.
Proof.
  intros Hn Hok Hmax.
  apply run_without_Reset_returns; try assumption.
  - intros i r Hi. discriminate.
  - intros i r Hi. discriminate.
  - intros Hne. exfalso. now apply Hne.
Qed.

(** ** Capacity *)

Lemma append_cap_ge (s : Slice.t) (p : list byte) :
  Slice.cap s <= Slice.cap (Slice.append s p).
Proof.
  unfold Slice.append.
  destruct (Slice.len s + Z.of_nat (length p) <=? Slice.cap s) eqn:Hfit.
  - destruct s; simpl; lia.
  - apply Z.leb_gt in Hfit. simpl.
    pose proof (growslice_fits (Slice.cap s) (Slice.len s + Z.of_nat (length p))).
    lia.
Qed.

Lemma append_fits (s : Slice.t) (p : list byte) :
  Slice.len s <= Slice.cap s ->
  Slice.len (Slice.append s p) <= Slice.cap (Slice.append s p).
Proof.
  intros Hs. unfold Slice.len at 1. rewrite append_elems, length_app.
  unfold Slice.append.
  destruct (Slice.len s + Z.of_nat (length p) <=? Slice.cap s) eqn:Hfit.
  - apply Z.leb_le in Hfit. unfold Slice.len in *. destruct s; simpl in *; lia.
  - simpl.
    pose proof (growslice_fits (Slice.cap s) (Slice.len s + Z.of_nat (length p))).
    unfold Slice.len in *. lia.
Qed.

Lemma step_storage (o : op) (w w' : world) (e : event) :
  attempt (exec o) w = Done e w' ->
  Slice.cap (buf (buffer w)) <= Slice.cap (buf (buffer w')) /\
  (storage_fits w -> storage_fits w') /\
  (allocated_1024 w -> allocated_1024 w').
Proof.
  unfold storage_fits, allocated_1024.
  intros Hs. apply attempt_exec_inv in Hs. destruct o.
  - destruct Hs as (n & err & HW). destruct p as [|x p].
    { rewrite Write_empty in HW. inversion HW; subst. repeat split; auto; lia. }
    destruct (eof (buffer w)) eqn:He.
    { rewrite Write_closed in HW by (assumption || discriminate).
      inversion HW; subst. repeat split; auto; lia. }
    rewrite Write_open in HW by (assumption || discriminate).
    inversion HW; subst; simpl. clear HW.
    set (s0 := if Slice.isnil (buf (buffer w))
               then Slice.make0 1024 else buf (buffer w)).
    pose proof (append_cap_ge s0 (x :: p)) as Hge.
    assert (Hs0 : Slice.cap (buf (buffer w)) <= Slice.cap s0)
      by (unfold s0; destruct (buf (buffer w)); simpl; lia).
    split; [lia|]. split.
    + intros Hfit. apply append_fits.
      unfold s0. destruct (buf (buffer w)); [unfold Slice.len; simpl; lia | exact Hfit].
    + intros Hal. right.
      assert (H1024 : 1024 <= Slice.cap s0).
      { unfold s0. destruct Hal as [->|Hal]; [simpl; lia|].
        destruct (buf (buffer w)); simpl in *; lia. }
      lia.
  - destruct Hs as (err & HC). rewrite Close_eq in HC.
    inversion HC; subst; simpl. repeat split; auto; lia.
  - rewrite Reset_eq in Hs. inversion Hs; subst; simpl.
    rewrite to0_cap, to0_len. split; [lia|]. split.
    + intros Hfit. pose proof (Zle_0_nat (length (Slice.elems (buf (buffer w))))).
      unfold Slice.len in Hfit. lia.
    + intros [->|Hal]; [now left | now right].
  - destruct Hs as (k & HN). rewrite NewReader_eq in HN.
    inversion HN; subst; simpl. repeat split; auto; lia.
  - destruct Hs as [[_ ->]|[a HR]]; [repeat split; auto; lia|].
    apply Read_Done_inv in HR.
    destruct HR as (r & _ & [->|[n ->]]); simpl; repeat split; auto; lia.
Qed.

(** No call ever gives capacity back: along any schedule, [Reset]
    included, [Cap] can only grow. *)
Theorem capacity_never_shrinks
        (ops : list op) (w w' : world) (es : list event) :
  run ops w = Done es w' ->
  Slice.cap (buf (buffer w)) <= Slice.cap (buf (buffer w')).
Proof.
  revert w es. induction ops as [|o ops IH]; intros w es Hr.
  - inversion Hr; subst. lia.
  - apply run_cons_inv in Hr. destruct Hr as (e & w1 & es' & Hs & Hr & _).
    destruct (step_storage o w w1 e Hs) as (Hc & _).
    specialize (IH w1 es' Hr). lia.
Qed.

Lemma run_storage (ops : list op) (w w' : world) (es : list event) :
  run ops w = Done es w' ->
  (storage_fits w -> storage_fits w') /\
  (allocated_1024 w -> allocated_1024 w').
Proof.
  revert w es. induction ops as [|o ops IH]; intros w es Hr.
  - inversion Hr; subst. auto.
  - apply run_cons_inv in Hr. destruct Hr as (e & w1 & es' & Hs & Hr & _).
    destruct (step_storage o w w1 e Hs) as (_ & Hf & Ha).
    destruct (IH w1 es' Hr) as (Hf' & Ha'). auto.
Qed.

(** In every state a schedule reaches from the empty buffer, [Len] is at
    most [Cap], and the storage is either still nil (nothing written yet) or
    has the initial allocation of 1024 bytes or more. *)
Theorem reachable_storage_allocated (w : world) :
  reachable w ->
  exists n c,
    Len w = Done n w /\ Cap w = Done c w /\ n <= c /\
    (buf (buffer w) = Slice.nil \/ 1024 <= c).
Proof.
  intros (ops & es & Hr).
  destruct (run_storage ops init w es Hr) as (Hf & Ha).
  exists (Slice.len (buf (buffer w))), (Slice.cap (buf (buffer w))).
  split; [reflexivity|]. split; [reflexivity|]. split.
  - apply Hf. unfold storage_fits, Slice.len. simpl. lia.
  - apply Ha. left. reflexivity.
Qed.

(** ** Reading a stream through *)

Lemma room_nonneg (ps : list (list byte)) : 0 <= room ps.
Proof. induction ps as [|p ps IH]; simpl; lia. Qed.

Lemma exec_Read_Done (w w1 : world) (i : nat) (p p' : list byte)
      (n : Z) (err : option error) :
  Read i p w = Done (n, err, p') w1 ->
  attempt (exec (OpRead i p)) w = Done (EvRead n err p') w1.
Proof. intros HR. unfold attempt, exec. step_M. rewrite HR. reflexivity. Qed.

Lemma exec_Read_Waiting (w : world) (i : nat) (p : list byte) :
  Read i p w = Waiting ->
  attempt (exec (OpRead i p)) w = Done EvParked w.
Proof. intros HR. unfold attempt, exec. step_M. rewrite HR. reflexivity. Qed.

Lemma run_cons_Done (o : op) (ops : list op) (w w1 w' : world)
      (e : event) (es : list event) :
  attempt (exec o) w = Done e w1 ->
  run ops w1 = Done es w' ->
  run (o :: ops) w = Done (e :: es) w'.
Proof.
  intros Hs Hr. simpl. step_M. fold (run ops). rewrite Hs, Hr. reflexivity.
Qed.

(** Successive reads through one reader hand over the storage in order,
    without loss or repetition: whatever the sizes of the caller's slices,
    the bytes delivered, put end to end, are the storage from the reader's
    offset on, as far as the slices have room, and the offset ends that much
    further.  A read that finds nothing (parked, or end of stream) delivers
    nothing. *)
Theorem Reads_deliver_in_order
        (ps : list (list byte)) (w : world) (i : nat) (r : reader) :
  readers w !! i = Some r ->
  mark r = set (buffer w) ->
  0 <= off r <= Slice.len (buf (buffer w)) ->
  Slice.len (buf (buffer w)) <= GoInt.max_int ->
  sig (buffer w) = true ->
  exists es w',
    run (map (OpRead i) ps) w = Done es w' /\
    buffer w' = buffer w /\
    concat (map delivered es)
    = take (Z.to_nat (room ps))
           (drop (Z.to_nat (off r)) (Slice.elems (buf (buffer w)))) /\
    off <$> readers w' !! i
    = Some (off r + Z.min (room ps) (Slice.len (buf (buffer w)) - off r)).
Proof.
  revert w r. induction ps as [|p ps IH]; intros w r Hi Hm Hoff Hmax Hsig.
  - exists [], w. simpl. rewrite Hi. simpl. repeat split.
    f_equal. lia.
  - pose proof (room_nonneg ps) as Hroom.
    set (l := Slice.elems (buf (buffer w))) in *.
    assert (Hl : Slice.len (buf (buffer w)) = Z.of_nat (length l)) by reflexivity.
    destruct (Z.eq_dec (off r) (Slice.len (buf (buffer w)))) as [Heq|Hne].
    + (* nothing left: the call parks or reports the end of the stream *)
      assert (Hstep : exists e, attempt (exec (OpRead i p)) w = Done e w /\
                                delivered e = []).
      { destruct (eof (buffer w)) eqn:He.
        - exists (EvRead 0 (Some EOF) p). split; [|reflexivity].
          apply exec_Read_Done. apply (Read_at_EOF w i r p); assumption.
        - exists EvParked. split; [|reflexivity].
          apply exec_Read_Waiting.
          rewrite (Read_waits w i r p Hi He Heq Hm), Hsig. reflexivity. }
      destruct Hstep as (e & Hs & Hd).
      destruct (IH w r Hi Hm Hoff Hmax Hsig) as (es & w' & Hr & Hb & Hc & Ho).
      exists (e :: es), w'. split; [eapply run_cons_Done; eassumption|].
      split; [assumption|]. simpl. rewrite Hd, Hc, Ho. fold l. split.
      * rewrite !drop_ge by lia. rewrite !take_nil. reflexivity.
      * f_equal. lia.
    + (* some bytes left: the call copies what fits *)
      set (n := Z.min (Z.of_nat (length p)) (Slice.len (buf (buffer w)) - off r)).
      pose proof (Read_copy_eq w i r p Hi Hm ltac:(lia) Hmax) as HR.
      cbv zeta in HR. fold n l in HR.
      apply exec_Read_Done in HR.
      set (w1 := {| buffer := buffer w;
                    readers := <[i := {| off := off r + n; mark := mark r |}]>
                                 (readers w) |}) in *.
      assert (Hi1 : readers w1 !! i = Some {| off := off r + n; mark := mark r |}).
      { simpl. apply list_lookup_insert_eq. eapply lookup_lt_Some; eassumption. }
      destruct (IH w1 _ Hi1 Hm ltac:(simpl; lia) Hmax Hsig)
        as (es & w' & Hr & Hb & Hc & Ho).
      eexists. exists w'. split; [eapply run_cons_Done; eassumption|].
      split; [assumption|]. simpl in Hc, Ho |- *. fold l in Hc. split.
      * rewrite Hc.
        rewrite take_app_le by (rewrite length_take, length_drop; lia).
        rewrite take_take, Nat.min_id.
        replace (Z.to_nat (off r + n)) with (Z.to_nat (off r) + Z.to_nat n)%nat
          by lia.
        rewrite <- drop_drop, take_take_drop.
        destruct (Z.le_gt_cases (Z.of_nat (length p))
                                (Slice.len (buf (buffer w)) - off r)) as [Hle|Hgt].
        -- f_equal. lia.
        -- rewrite !take_ge by (rewrite length_drop; lia). reflexivity.
      * rewrite Ho. f_equal. lia.
Qed.

(** [NewReader] returns a fresh handle and disturbs neither the stream nor
    the readers there are; the new reader starts at offset 0, so with a
    slice at least as long as the storage its first [Read] returns
    everything written so far. *)
Theorem NewReader_reads_whole_history (w : world) (q : list byte) :
  0 < Slice.len (buf (buffer w)) <= GoInt.max_int ->
  Slice.len (buf (buffer w)) <= Z.of_nat (length q) ->
  exists w1 w2,
    NewReader w = Done (length (readers w)) w1 /\
    buf (buffer w1) = buf (buffer w) /\
    eof (buffer w1) = eof (buffer w) /\
    set (buffer w1) = set (buffer w) /\
    (forall j r, readers w !! j = Some r -> readers w1 !! j = Some r) /\
    Read (length (readers w)) q w1
    = Done (Slice.len (buf (buffer w)), None,
            Slice.elems (buf (buffer w))
              ++ drop (length (Slice.elems (buf (buffer w)))) q)
           w2.
Proof.
  intros Hlen Hq. eexists. eexists.
  split; [apply NewReader_eq|]. simpl.
  split; [reflexivity|]. split; [reflexivity|]. split; [reflexivity|].
  split; [intros j r Hj; apply lookup_app_l_Some; assumption|].
  rewrite (Read_copy_eq _ (length (readers w))
             {| off := 0; mark := set (buffer w) |} q); simpl.
  - rewrite Z.sub_0_r, Z.min_r by lia.
    change (Z.to_nat 0) with 0%nat. rewrite drop_0.
    unfold Slice.len. rewrite Nat2Z.id.
    rewrite take_ge by reflexivity. reflexivity.
  - apply list_lookup_middle. reflexivity.
  - reflexivity.
  - lia.
  - lia.
Qed.

(** ** The test helper read *)



(** On a reader of the current epoch with unread bytes, [read(r, c)]
    returns the next [c] bytes of the storage, or all that remain if there
    are fewer, and no error. *)
Theorem read_returns_next_bytes (w : world) (i c : nat) (r : reader) :
  readers w !! i = Some r ->
  mark r = set (buffer w) ->
  0 <= off r < Slice.len (buf (buffer w)) ->
  Slice.len (buf (buffer w)) <= GoInt.max_int ->
  exists w',
    read i c w
    = Done (take c (drop (Z.to_nat (off r)) (Slice.elems (buf (buffer w)))), None)
           w'.
Proof.
  intros Hi Hm Hoff Hmax. unfold read. step_M.
  rewrite (Read_copy_eq w i r _ Hi Hm Hoff Hmax). cbv zeta.
  rewrite length_replicate.
  set (l := drop (Z.to_nat (off r)) (Slice.elems (buf (buffer w)))).
  assert (Hl : Z.of_nat (length l) = Slice.len (buf (buffer w)) - off r).
  { unfold l, Slice.len in *. rewrite length_drop. lia. }
  set (n := Z.min (Z.of_nat c) (Slice.len (buf (buffer w)) - off r)).
  assert (Hn : Z.to_nat n = (c `min` length l)%nat) by lia.
  assert (Hlen : length (take (Z.to_nat n) l ++ drop (Z.to_nat n) (replicate c x00))
                 = c).
  { rewrite length_app, length_take, length_drop, length_replicate. lia. }
  rewrite Hlen.
  assert (Hchk : (0 <=? n) && (n <=? Z.of_nat c) = true).
  { apply andb_true_iff. split; apply Z.leb_le; lia. }
  rewrite Hchk. eexists. f_equal. f_equal.
  rewrite take_app_le by (rewrite length_take; lia).
  rewrite take_take, Nat.min_id, Hn.
  destruct (Nat.le_gt_cases c (length l)) as [Hle|Hgt].
  - f_equal. lia.
  - rewrite !take_ge by lia. reflexivity.
Qed.

End Beyond.

(** * Further evaluations *)



Lemma Writes_accumulate_witness :
  exists w',
    run [OpWrite bytes_bb; OpWrite []; OpWrite bytes_aa] written_aa
    = Done [EvWrite 2 None; EvWrite 0 None; EvWrite 2 None] w' /\
    Bytes w' = Done (bytes_aa ++ bytes_bb ++ bytes_aa) w' /\
    String w' = Done (bytes_aa ++ bytes_bb ++ bytes_aa) w' /\
    Len w' = Done 6 w' /\
    readers w' = [].
Proof.
  exact (Writes_accumulate written_aa [bytes_bb; []; bytes_aa] eq_refl).
Defined.

Lemma NewReader_reads_whole_history_witness :
  exists w1 w2,
    NewReader sample_open = Done 2%nat w1 /\
    buf (buffer w1) = buf (buffer sample_open) /\
    eof (buffer w1) = false /\
    set (buffer w1) = false /\
    (forall j r, readers sample_open !! j = Some r -> readers w1 !! j = Some r) /\
    Read 2 (zeros 5) w1 = Done (4, None, bytes_aa ++ bytes_bb ++ zeros 1) w2.
Proof.
  assert (Hlen : 0 < Slice.len (buf (buffer sample_open)) <= GoInt.max_int)
    by (vm_compute; split; [reflexivity | discriminate]).
  assert (Hq : Slice.len (buf (buffer sample_open)) <= Z.of_nat (length (zeros 5)))
    by (vm_compute; discriminate).
  exact (NewReader_reads_whole_history sample_open (zeros 5) Hlen Hq).
Defined.

Lemma Reads_deliver_in_order_witness :
  exists es w',
    run [OpRead 1%nat (zeros 1); OpRead 1%nat (zeros 2); OpRead 1%nat (zeros 3)]
        sample_open = Done es w' /\
    buffer w' = buffer sample_open /\
    concat (map delivered es) = bytes_aa ++ bytes_bb /\
    off <$> readers w' !! 1%nat = Some 4.
Proof.
  assert (Hoff : 0 <= 0 <= Slice.len (buf (buffer sample_open)))
    by (vm_compute; split; discriminate).
  assert (Hmax : Slice.len (buf (buffer sample_open)) <= GoInt.max_int)
    by (vm_compute; discriminate).
  exact (Reads_deliver_in_order [zeros 1; zeros 2; zeros 3] sample_open 1
           {| off := 0; mark := false |} eq_refl eq_refl Hoff Hmax eq_refl).
Defined.

Lemma Read_waits_iff_witness :
  Read 0 (zeros 4) sample_parked = Waiting <->
  eof (buffer sample_parked) = false /\
  2 = Slice.len (buf (buffer sample_parked)) /\
  false = set (buffer sample_parked) /\
  sig (buffer sample_parked) = true.
Proof.
  exact (Read_waits_iff sample_parked 0 {| off := 2; mark := false |}
           (zeros 4) eq_refl).
Defined.

Lemma reads_by_others_invisible_witness :
  exists es w',
    run [OpRead 0%nat (zeros 1); OpRead 0%nat (zeros 4)] sample_open = Done es w' /\
    buffer w' = buffer sample_open /\
    readers w' !! 1%nat = readers sample_open !! 1%nat /\
    forall q, outcome_of (Read 1 q w') = outcome_of (Read 1 q sample_open).
Proof.
  eexists. eexists.
  assert (Hr : run [OpRead 0%nat (zeros 1); OpRead 0%nat (zeros 4)] sample_open
               = Done [EvRead 1 None [x62]; EvRead 1 None (x62 :: zeros 3)]
                      sample_open_read) by reflexivity.
  split; [exact Hr|].
  exact (reads_by_others_invisible 1
           [OpRead 0%nat (zeros 1); OpRead 0%nat (zeros 4)]
           sample_open sample_open_read _ eq_refl Hr).
Defined.

Lemma readers_keep_their_epoch_witness :
  run double_reset init
  = Done [EvWrite 2 None; EvNewReader 0;
          EvRead 2 None (bytes_aa ++ zeros 2); EvReset; EvReset]
         after_double_reset /\
  exists r', readers after_double_reset !! 0%nat = Some r' /\ mark r' = false.
Proof.
  assert (Hr : run [OpRead 0%nat (zeros 4); OpReset; OpReset]
                   {| buffer := {| buf := Slice.arr bytes_aa 1024; eof := false;
                                   set := false; sig := true |};
                      readers := [ {| off := 0; mark := false |} ] |}
               = Done [EvRead 2 None (bytes_aa ++ zeros 2); EvReset; EvReset]
                      after_double_reset) by reflexivity.
  split; [reflexivity|].
  exact (readers_keep_their_epoch _ _ after_double_reset _ 0
           {| off := 0; mark := false |} Hr eq_refl).
Defined.

Lemma offsets_never_decrease_witness :
  exists r', readers sample_after_Close !! 1%nat = Some r' /\ 0 <= off r'.
Proof.
  assert (Hmax : Slice.len (buf (buffer sample_open))
                 + bytes_offered (OpClose :: after_Close_calls)
                 <= GoInt.max_int) by (vm_compute; discriminate).
  assert (Hr : run (OpClose :: after_Close_calls) sample_open
               = Done [EvClose None; EvWrite 0 (Some errClosed);
                       EvRead 4 None (bytes_aa ++ bytes_bb); EvNewReader 2]
                      sample_after_Close) by reflexivity.
  exact (offsets_never_decrease _ sample_open sample_after_Close _ 1
           {| off := 0; mark := false |} Hmax Hr eq_refl).
Defined.

Lemma Reset_discontinues_current_readers_witness :
  exists es w',
    run [OpReset; OpWrite bytes_aa; OpClose] sample_open = Done es w' /\
    Slice.elems (buf (buffer w')) = bytes_aa /\
    Read 0 (zeros 4) w' = Done (0, Some ErrUnexpectedEOF, zeros 4) w'.
Proof.
  eexists. eexists.
  assert (Hr : run [OpReset; OpWrite bytes_aa; OpClose] sample_open
               = Done [EvReset; EvWrite 2 None; EvClose None]
                      {| buffer := {| buf := Slice.arr bytes_aa 1024; eof := true;
                                      set := true; sig := true |};
                         readers := readers sample_open |}) by reflexivity.
  split; [exact Hr|]. split; [reflexivity|].
  exact (Reset_discontinues_current_readers sample_open _
           [OpWrite bytes_aa; OpClose] _ 0 {| off := 2; mark := false |}
           (zeros 4) eq_refl eq_refl eq_refl Hr).
Defined.

Lemma Reset_starts_afresh_witness :
  exists w1 w2 w3 w4,
    Reset sample_closed = Done tt w1 /\
    Write bytes_bb w1 = Done (2, None) w2 /\
    NewReader w2 = Done 2%nat w3 /\
    Read 2 (zeros 4) w3 = Done (2, None, bytes_bb ++ zeros 2) w4 /\
    Slice.elems (buf (buffer w4)) = bytes_bb.
Proof.
  assert (Hp : bytes_bb <> []) by discriminate.
  assert (Hmax : Z.of_nat (length bytes_bb) <= GoInt.max_int)
    by (vm_compute; discriminate).
  assert (Hq : (length bytes_bb <= length (zeros 4))%nat) by (vm_compute; lia).
  exact (Reset_starts_afresh sample_closed bytes_bb (zeros 4) Hp Hmax Hq).
Defined.


Lemma no_Reset_no_panic_witness :
  exists es w,
    run [OpNewReader; OpRead 0%nat (zeros 4); OpWrite bytes_aa;
         OpRead 0%nat (zeros 4); OpNewReader; OpClose; OpRead 1%nat (zeros 1);
         OpWrite bytes_bb; OpRead 0%nat (zeros 4)] init = Done es w.
Proof.
  set (ops := [OpNewReader; OpRead 0%nat (zeros 4); OpWrite bytes_aa;
               OpRead 0%nat (zeros 4); OpNewReader; OpClose;
               OpRead 1%nat (zeros 1); OpWrite bytes_bb; OpRead 0%nat (zeros 4)]).
  assert (Hmax : bytes_offered ops <= GoInt.max_int)
    by (vm_compute; discriminate).
  exact (no_Reset_no_panic ops eq_refl eq_refl Hmax).
Defined.

Lemma reachable_Read_finds_sig_witness :
  reachable one_reader /\
  (readers one_reader <> [] -> sig (buffer one_reader) = true) /\
  Read 0 (zeros 4) one_reader <> Fault NilDereference.
Proof.
  assert (Hr : reachable one_reader).
  { exists [OpNewReader], [EvNewReader 0]. reflexivity. }
  exact (conj Hr (reachable_Read_finds_sig one_reader 0 (zeros 4) Hr)).
Defined.

Lemma capacity_never_shrinks_witness :
  Slice.cap (buf (buffer sample_closed))
  <= Slice.cap (buf (buffer {| buffer := {| buf := Slice.arr bytes_aa 1024;
                                            eof := false; set := true;
                                            sig := true |};
                               readers := readers sample_closed |})).
Proof.
  assert (Hr : run [OpReset; OpWrite bytes_aa] sample_closed
               = Done [EvReset; EvWrite 2 None]
                      {| buffer := {| buf := Slice.arr bytes_aa 1024;
                                      eof := false; set := true; sig := true |};
                         readers := readers sample_closed |}) by reflexivity.
  exact (capacity_never_shrinks _ sample_closed _ _ Hr).
Defined.

Lemma reachable_storage_allocated_witness :
  reachable written_aa /\
  exists n c,
    Len written_aa = Done n written_aa /\ Cap written_aa = Done c written_aa /\
    n <= c /\ (buf (buffer written_aa) = Slice.nil \/ 1024 <= c).
Proof.
  assert (Hr : reachable written_aa).
  { exists [OpWrite bytes_aa], [EvWrite 2 None]. reflexivity. }
  exact (conj Hr (reachable_storage_allocated written_aa Hr)).
Defined.

Lemma read_returns_next_bytes_witness :
  exists w', read 1 3 sample_open = Done ([x61; x61; x62], None) w'.
Proof.
  assert (Hoff : 0 <= 0 < Slice.len (buf (buffer sample_open)))
    by (vm_compute; split; [discriminate | reflexivity]).
  assert (Hmax : Slice.len (buf (buffer sample_open)) <= GoInt.max_int)
    by (vm_compute; discriminate).
  exact (read_returns_next_bytes sample_open 1 3 {| off := 0; mark := false |}
           eq_refl eq_refl Hoff Hmax).
Defined.
